(** * Walls of Doom: random source, rigid matrix and terminal I/O

    A shallow embedding of the parts of the game that its specification
    makes claims about:

    - [Random]: the xorshift generator of [sources/random.cpp]
      ([xorshift128], [seed_random], [find_next_power_of_two],
      [random_integer]);
    - [Rigid]: the rigid occupancy matrix declared in [game.hpp];
    - [IO]: the drawing and input functions of [walls-of-doom/io.c]
      ([print_absolute], [print_centered], [cache_borders_texture],
      [draw_game], [command_from_event], [read_next_command],
      [read_string]);
    - [RandomMore], [Text], [IOMore], [Joystick], [Main]: the functions
      around them ([random_word]; [remove_first_breaks], [count_lines],
      [copy_first_line]; [create_window], [print_limited],
      [print_centered_vertically], [wait_for_next_command];
      [command_from_joystick_event]; [parse_argument] and [main]).

    The fixed-width integers of the generator and the [unsigned char]
    counters of the matrix are modelled as [Z] with the wrap-around written
    out; the [int] coordinates of [io.c] are modelled as [Z], with the
    division of C ([Z.quot]), and are assumed not to overflow.  The
    definitions come first; the properties follow, one module for each
    part. *)

From Stdlib Require Import ZArith Lia Bool Btauto String Ascii DecimalString.
From stdpp Require Import base list.

Local Open Scope Z_scope.

(* ===================================================================== *)
(** ** Fixed-width integers *)
(* ===================================================================== *)

(** Conversion to [U64] (an unsigned 64-bit integer): reduction modulo 2^64. *)
Definition wrap_u64 (v : Z) : Z := v mod 2 ^ 64.

(** Conversion to [S32] (a signed 32-bit integer in two's complement). *)
Definition wrap_s32 (v : Z) : Z := (v + 2 ^ 31) mod 2 ^ 32 - 2 ^ 31.

Definition is_u64 (v : Z) : Prop := 0 <= v < 2 ^ 64.
Definition is_s32 (v : Z) : Prop := - 2 ^ 31 <= v < 2 ^ 31.

(* ===================================================================== *)
(** ** The random source ([sources/random.cpp]) *)
(* ===================================================================== *)

Module Random.

(** The four static state variables [x], [y], [z], [w]. *)
Record State : Type := mkState { x : Z; y : Z; z : Z; w : Z }.

(** Static storage is zero-initialised. *)
Definition initial_state : State := mkState 0 0 0 0.

Definition valid_state (s : State) : Prop :=
  is_u64 (x s) /\ is_u64 (y s) /\ is_u64 (z s) /\ is_u64 (w s).

Definition all_zero (s : State) : Prop :=
  x s = 0 /\ y s = 0 /\ z s = 0 /\ w s = 0.

(** [xorshift128]: returns the new [w] together with the updated state. *)
Definition xorshift128 (s : State) : Z * State :=
  let t := x s in
  let t := Z.lxor t (wrap_u64 (Z.shiftl t 11)) in
  let t := Z.lxor t (Z.shiftr t 8) in
  let w1 := Z.lxor (w s) (Z.shiftr (w s) 19) in
  let w2 := Z.lxor w1 t in
  (w2, mkState (y s) (z s) (w s) w2).

(** [seed_random]: [time] is the value returned by [time(nullptr)]; only [x]
    is assigned. *)
Definition seed_random (time : Z) (s : State) : State :=
  mkState (wrap_u64 time) (y s) (z s) (w s).

(** The loop of [find_next_power_of_two].  Each iteration shifts [number]
    right by one bit, which on a binary positive number is dropping its
    lowest digit, so the recursion is structural in [number]. *)
Fixpoint fnp2_loop_pos (number : positive) (result : Z) : Z :=
  let result := wrap_u64 (Z.shiftl result 1) in
  match number with
  | xH => result
  | xO number' | xI number' => fnp2_loop_pos number' result
  end.

Definition fnp2_loop (number result : Z) : Z :=
  match number with
  | Zpos p => fnp2_loop_pos p result
  | _ => result
  end.

Definition find_next_power_of_two (number : Z) : Z := fnp2_loop number 1.

(** The [do ... while (value >= range)] loop of [random_integer]; [fuel]
    bounds the number of iterations. *)
Fixpoint sample (fuel : nat) (range next_power_of_two : Z) (s : State)
  : option (Z * State) :=
  match fuel with
  | O => None
  | S fuel' =>
      let (r, s') := xorshift128 s in
      let value := r mod next_power_of_two in
      if value >=? range then sample fuel' range next_power_of_two s'
      else Some (value, s')
  end.

Definition random_integer (fuel : nat) (minimum maximum : Z) (s : State)
  : option (Z * State) :=
  if maximum <? minimum then Some (0, s)
  else
    let range := wrap_u64 (wrap_u64 (wrap_u64 maximum - wrap_u64 minimum) + 1) in
    let next_power_of_two := find_next_power_of_two range in
    match sample fuel range next_power_of_two s with
    | None => None
    | Some (value, s') =>
        Some (wrap_s32 (wrap_u64 (wrap_u64 minimum + value)), s')
    end.

(** A call of the public interface of the generator, and the run of a
    sequence of calls. *)
Inductive Call : Type :=
| CallXorshift128
| CallRandomInteger (minimum maximum : Z).

Definition run_call (fuel : nat) (c : Call) (s : State) : option (Z * State) :=
  match c with
  | CallXorshift128 => Some (xorshift128 s)
  | CallRandomInteger minimum maximum => random_integer fuel minimum maximum s
  end.

Fixpoint run_calls (fuel : nat) (cs : list Call) (s : State)
  : option (list Z * State) :=
  match cs with
  | [] => Some ([], s)
  | c :: cs' =>
      match run_call fuel c s with
      | None => None
      | Some (r, s') =>
          match run_calls fuel cs' s' with
          | None => None
          | Some (rs, s'') => Some (r :: rs, s'')
          end
      end
  end.

(** The calls whose arguments are [S32] values. *)
Definition valid_call (c : Call) : Prop :=
  match c with
  | CallXorshift128 => True
  | CallRandomInteger minimum maximum => is_s32 minimum /\ is_s32 maximum
  end.

(** [range] in [random_integer]. *)
Definition range_of (minimum maximum : Z) : Z :=
  wrap_u64 (wrap_u64 (wrap_u64 maximum - wrap_u64 minimum) + 1).

(** A run of the program as far as [random.cpp] can observe it: the four
    static words and the time that [time(nullptr)] returns, which moves on
    by itself between the calls and during them. *)
Record Process : Type := mkProcess { generator : State; time_now : Z }.

(** [seed_random] in a process: the one function of the generator that
    reads the time. *)
Definition seed_random_in (p : Process) : Process :=
  mkProcess (seed_random (time_now p) (generator p)) (time_now p).

(** The [do ... while (value >= range)] loop of [random_integer] as a
    relation between the state before the loop, the value the loop ends with
    and the state after it: one derivation for each finite execution, with
    no bound on the number of iterations. *)
Inductive sampling (range next_power_of_two : Z) : State -> Z -> State -> Prop :=
| sampling_done (s : State) :
    fst (xorshift128 s) mod next_power_of_two < range ->
    sampling range next_power_of_two s
             (fst (xorshift128 s) mod next_power_of_two) (snd (xorshift128 s))
| sampling_again (s : State) (value : Z) (s' : State) :
    range <= fst (xorshift128 s) mod next_power_of_two ->
    sampling range next_power_of_two (snd (xorshift128 s)) value s' ->
    sampling range next_power_of_two s value s'.

(** One call in a process: the result and the process after the call, whose
    time is any time that is not earlier. *)
Inductive call_step : Call -> Process -> Z -> Process -> Prop :=
| step_xorshift128 (p : Process) (t : Z) :
    time_now p <= t ->
    call_step CallXorshift128 p (fst (xorshift128 (generator p)))
              (mkProcess (snd (xorshift128 (generator p))) t)
| step_random_integer_sentinel (minimum maximum : Z) (p : Process) (t : Z) :
    maximum < minimum -> time_now p <= t ->
    call_step (CallRandomInteger minimum maximum) p 0 (mkProcess (generator p) t)
| step_random_integer (minimum maximum : Z) (p : Process) (value : Z)
    (s' : State) (t : Z) :
    minimum <= maximum -> time_now p <= t ->
    sampling (range_of minimum maximum)
             (find_next_power_of_two (range_of minimum maximum))
             (generator p) value s' ->
    call_step (CallRandomInteger minimum maximum) p
              (wrap_s32 (wrap_u64 (wrap_u64 minimum + value))) (mkProcess s' t).

(** A sequence of calls in a process, with the results in order. *)
Inductive calls_run : list Call -> Process -> list Z -> Process -> Prop :=
| calls_run_nil (p : Process) : calls_run [] p [] p
| calls_run_cons (c : Call) (cs : list Call) (p p' p'' : Process) (v : Z)
    (vs : list Z) :
    call_step c p v p' -> calls_run cs p' vs p'' ->
    calls_run (c :: cs) p (v :: vs) p''.

(** Two runs of the program, at different times, with the same generator
    state, and the calls of the examples. *)
Definition example_process_1 : Process := mkProcess (mkState 2016 0 0 0) 1478000000.
Definition example_process_2 : Process := mkProcess (mkState 2016 0 0 0) 1502000000.

Definition example_calls : list Call :=
  [CallXorshift128; CallRandomInteger 1 6; CallRandomInteger 5 2;
   CallRandomInteger (-3) 3].

(** The generator as a linear map over GF(2).  [next] is the state update
    of [xorshift128], [sxor] the bitwise sum of two states and
    [poly_apply p s] the sum of the states [next^i s] over the binary digits
    [i] of [p] that are set. *)
Definition next (s : State) : State := snd (xorshift128 s).

Definition sxor (a b : State) : State :=
  mkState (Z.lxor (x a) (x b)) (Z.lxor (y a) (y b))
          (Z.lxor (z a) (z b)) (Z.lxor (w a) (w b)).

Fixpoint poly_apply (p : positive) (s : State) : State :=
  match p with
  | xH => s
  | xO p' => poly_apply p' (next s)
  | xI p' => sxor s (poly_apply p' (next s))
  end.

Fixpoint odd_ones (p : positive) : bool :=
  match p with
  | xH => true
  | xO p' => odd_ones p'
  | xI p' => negb (odd_ones p')
  end.

(** A polynomial of degree 253 that annihilates [next]. *)
Definition annihilator : positive :=
  0x2e5cb972e5c1dca803dadc7053b6c585500e3f136aae0b7c39c4d272e9cd2e57%positive.

Definition state_eqb (a b : State) : bool :=
  (x a =? x b) && (y a =? y b) && (z a =? z b) && (w a =? w b).

(** The states with a single bit set. *)
Definition unit_x (v : Z) : State := mkState v 0 0 0.
Definition unit_y (v : Z) : State := mkState 0 v 0 0.
Definition unit_z (v : Z) : State := mkState 0 0 v 0.
Definition unit_w (v : Z) : State := mkState 0 0 0 v.

Definition annihilates_bit (k : nat) : bool :=
  let b := 2 ^ Z.of_nat k in
  state_eqb (poly_apply annihilator (unit_x b)) initial_state &&
  state_eqb (poly_apply annihilator (unit_y b)) initial_state &&
  state_eqb (poly_apply annihilator (unit_z b)) initial_state &&
  state_eqb (poly_apply annihilator (unit_w b)) initial_state.

(** What the specification asks of [find_next_power_of_two], and what the
    loop computes. *)
Definition is_power_of_two (r : Z) : Prop := exists k, 0 <= k /\ r = 2 ^ k.

Definition smallest_power_of_two_ge (n r : Z) : Prop :=
  is_power_of_two r /\ n <= r /\
  forall k, 0 <= k -> n <= 2 ^ k -> r <= 2 ^ k.

Definition smallest_power_of_two_gt (n r : Z) : Prop :=
  is_power_of_two r /\ n < r /\
  forall k, 0 <= k -> n < 2 ^ k -> r <= 2 ^ k.

End Random.

(* ===================================================================== *)
(** ** The data model ([game.hpp], [perks.h] and the structures read by
       [io.c]) *)
(* ===================================================================== *)


(** [enum Perk] of [perks.h]. *)
Inductive Perk : Type :=
| PERK_POWER_INVINCIBILITY
| PERK_POWER_LEVITATION
| PERK_POWER_LOW_GRAVITY
| PERK_POWER_SUPER_JUMP
| PERK_POWER_TIME_STOP
| PERK_BONUS_EXTRA_POINTS
| PERK_BONUS_EXTRA_LIFE
| PERK_COUNT
| PERK_NONE.

Definition Perk_eqb (a b : Perk) : bool :=
  match a, b with
  | PERK_POWER_INVINCIBILITY, PERK_POWER_INVINCIBILITY
  | PERK_POWER_LEVITATION, PERK_POWER_LEVITATION
  | PERK_POWER_LOW_GRAVITY, PERK_POWER_LOW_GRAVITY
  | PERK_POWER_SUPER_JUMP, PERK_POWER_SUPER_JUMP
  | PERK_POWER_TIME_STOP, PERK_POWER_TIME_STOP
  | PERK_BONUS_EXTRA_POINTS, PERK_BONUS_EXTRA_POINTS
  | PERK_BONUS_EXTRA_LIFE, PERK_BONUS_EXTRA_LIFE
  | PERK_COUNT, PERK_COUNT
  | PERK_NONE, PERK_NONE => true
  | _, _ => false
  end.

(** [BoundingBox]: the fields read by [cache_borders_texture] and
    [draw_platforms]. *)
Module BoundingBox.
Record t : Type := mk { min_x : Z; min_y : Z; max_x : Z; max_y : Z }.
End BoundingBox.

(** [Platform]: the fields read by [draw_platforms]. *)
Module Platform.
Record t : Type := mk { x : Z; y : Z; width : Z }.
End Platform.

(** [Player]: the fields read by [draw_top_bar] and [draw_player]. *)
Module Player.
Record t : Type := mk { x : Z; y : Z; lives : Z; score : Z; perk : Perk }.
End Player.

(** [struct Game] of [game.hpp].  Pointers to owned objects are modelled by
    the objects themselves, [platforms] with [platform_count] by a list, and
    the [message] buffer by the string it holds. *)
Record Game : Type := mkGame {
  player : Player.t;
  platforms : list Platform.t;
  current_frame : Z;
  desired_frame : Z;
  played_frames : Z;
  limit_played_frames : Z;
  paused : bool;
  tile_w : Z;
  tile_h : Z;
  perk : Perk;
  perk_x : Z;
  perk_y : Z;
  perk_end_frame : Z;
  box : BoundingBox.t;
  rigid_matrix_n : Z;
  rigid_matrix_m : Z;
  rigid_matrix_size : Z;
  rigid_matrix : list Z;
  message : string;
  message_end_frame : Z;
  message_priority : Z
}.

Definition platform_count (game : Game) : nat := length (platforms game).



(* ===================================================================== *)
(** ** The rigid occupancy matrix *)
(* ===================================================================== *)

Module Rigid.

(** Modelled from the spec: the matrix has one cell for each cell of the
    bounding box; the bodies of the functions of [game.hpp] are not part of
    the sources. *)
Definition in_box (b : BoundingBox.t) (x y : Z) : bool :=
  (BoundingBox.min_x b <=? x) && (x <=? BoundingBox.max_x b) &&
  (BoundingBox.min_y b <=? y) && (y <=? BoundingBox.max_y b).

(** Modelled from the spec: the matrix is a flat byte array indexed by
    hand-computed offsets.  The offset of cell [(x, y)]: rows of
    [rigid_matrix_m] cells, counted from the corner of the box. *)
Definition rigid_index (game : Game) (x y : Z) : nat :=
  Z.to_nat ((x - BoundingBox.min_x (box game)) +
            (y - BoundingBox.min_y (box game)) * rigid_matrix_m game).

(** Modelled from the spec: [get_from_rigid_matrix] is declared in
    [game.hpp] and defined in a file that is not part of the sources.
    It returns the counter of the cell, and 0 for a cell outside the box. *)
Definition get_from_rigid_matrix (game : Game) (x y : Z) : Z :=
  if in_box (box game) x y
  then default 0 (rigid_matrix game !! rigid_index game x y)
  else 0.

















End Rigid.

(* ===================================================================== *)
(** ** SDL: the constants and the event structure used by [io.c] *)
(* ===================================================================== *)

Module SDL.

(** [SDL_EventType]. *)
Definition SDL_QUIT : Z := 0x100.
Definition SDL_KEYDOWN : Z := 0x300.
Definition SDL_TEXTINPUT : Z := 0x303.

(** [SDL_Keycode]. *)
Definition SDLK_BACKSPACE : Z := 8.
Definition SDLK_RETURN : Z := 13.
Definition SDLK_SPACE : Z := 32.
Definition SDLK_c : Z := 99.
Definition SDLK_q : Z := 113.
Definition SDLK_RIGHT : Z := 0x4000004F.
Definition SDLK_LEFT : Z := 0x40000050.
Definition SDLK_DOWN : Z := 0x40000051.
Definition SDLK_UP : Z := 0x40000052.
Definition SDLK_KP_ENTER : Z := 0x40000058.
Definition SDLK_KP_2 : Z := 0x4000005A.
Definition SDLK_KP_4 : Z := 0x4000005C.
Definition SDLK_KP_5 : Z := 0x4000005D.
Definition SDLK_KP_6 : Z := 0x4000005E.
Definition SDLK_KP_8 : Z := 0x40000060.

(** [SDL_Event]: [type], [key.keysym.sym] and [text.text[0]]. *)
Record SDL_Event : Type := mkEvent {
  type : Z;
  key_keysym_sym : Z;
  text_text_0 : ascii
}.

Record SDL_Rect : Type := mkRect { x : Z; y : Z; w : Z; h : Z }.

End SDL.

(* ===================================================================== *)
(** ** Terminal input and output ([walls-of-doom/io.c]) *)
(* ===================================================================== *)

Module IO.
Import SDL.

(** The values of [Code] that [io.c] returns. *)
Inductive Code : Type := CODE_OK | CODE_ERROR | CODE_QUIT.

(** The [Command] enumeration. *)
Inductive Command : Type :=
| COMMAND_NONE
| COMMAND_UP
| COMMAND_DOWN
| COMMAND_LEFT
| COMMAND_RIGHT
| COMMAND_CENTER
| COMMAND_JUMP
| COMMAND_ENTER
| COMMAND_PAUSE
| COMMAND_INVEST
| COMMAND_CONVERT
| COMMAND_QUIT
| COMMAND_CLOSE.

Definition is_command_none (c : Command) : bool :=
  match c with COMMAND_NONE => true | _ => false end.

Record Color : Type := mkColor { r : Z; g : Z; b : Z; a : Z }.
Record ColorPair : Type := mkColorPair { foreground : Color; background : Color }.

(** What a texture shows: a line of text, a glyph, or whatever was rendered
    while it was the render target. *)
Inductive Texture : Type :=
| TextTexture (text : string) (fg bg : Color) (w h : Z)
| GlyphTexture (glyph : ascii) (fg bg : Color) (w h : Z)
| TargetTexture (w h : Z).

Definition texture_size (t : Texture) : Z * Z :=
  match t with
  | TextTexture _ _ _ w h => (w, h)
  | GlyphTexture _ _ _ w h => (w, h)
  | TargetTexture w h => (w, h)
  end.

(** The calls received by the [SDL_Renderer]; [RenderFillRect] is recorded
    with the draw colour of the renderer at the time of the call. *)
Inductive RenderOp : Type :=
| RenderClear
| RenderPresent
| RenderCopy (texture : option Texture) (dstrect : SDL_Rect)
| RenderFillRect (rect : SDL_Rect) (color : Color)
| SetRenderDrawColor (color : Color)
| SetRenderTarget (target : option Texture).

(** What lies outside the program: the window and font metrics set by
    [initialize], the settings, the colour constants, the name of a perk, the
    results of the SDL calls that may fail, and the successive readings of
    the clock. *)
Record Env : Type := mkEnv {
  window_width : Z;
  window_height : Z;
  bar_height : Z;
  global_monospaced_font_width : Z;
  global_monospaced_font_height : Z;
  get_columns : Z;
  get_lines : Z;
  get_padding : Z;
  COLOR_PAIR_DEFAULT : ColorPair;
  COLOR_PAIR_TOP_BAR : ColorPair;
  COLOR_PAIR_BOTTOM_BAR : ColorPair;
  COLOR_PAIR_PLATFORM : ColorPair;
  COLOR_PAIR_PERK : ColorPair;
  COLOR_PAIR_PLAYER : ColorPair;
  get_perk_name : Perk -> string;
  (** [TTF_RenderText_Shaded]: [None] for [NULL], or the size of the surface. *)
  TTF_RenderText_Shaded : string -> option (Z * Z);
  TTF_RenderGlyph_Shaded : ascii -> option (Z * Z);
  (** [SDL_CreateTextureFromSurface] and [SDL_CreateTexture]: whether a
      texture of this size can be created. *)
  SDL_CreateTextureFromSurface : Z * Z -> bool;
  SDL_CreateTexture : Z -> Z -> bool;
  (** The value returned by the n-th call of [get_milliseconds]. *)
  clock : nat -> Z
}.

(** The memory of the program: the game, the renderer (the calls it has
    received and its draw colour), the log, the cached borders texture, the
    profiler and the number of clock readings so far. *)
Record World : Type := mkWorld {
  game : Game;
  render_ops : list RenderOp;
  log_messages : list string;
  borders_texture : option Texture;
  profiler : list (string * Z);
  clock_reads : nat;
  draw_color : Color
}.

(** A computation on the world. *)
Definition M (A : Type) : Type := World -> A * World.

#[global] Instance M_ret : MRet M := fun A v wd => (v, wd).

#[global] Instance M_bind : MBind M := fun A B k m wd =>
  let (v, wd') := m wd in k v wd'.

Definition render (op : RenderOp) : M unit := fun wd =>
  (tt, mkWorld (game wd) (render_ops wd ++ [op]) (log_messages wd)
         (borders_texture wd) (profiler wd) (clock_reads wd) (draw_color wd)).

Definition log_message (message : string) : M unit := fun wd =>
  (tt, mkWorld (game wd) (render_ops wd) (log_messages wd ++ [message])
         (borders_texture wd) (profiler wd) (clock_reads wd) (draw_color wd)).

Definition set_borders_texture (t : option Texture) : M unit := fun wd =>
  (tt, mkWorld (game wd) (render_ops wd) (log_messages wd) t
         (profiler wd) (clock_reads wd) (draw_color wd)).

Definition get_borders_texture : M (option Texture) := fun wd =>
  (borders_texture wd, wd).

Definition update_profiler (name : string) (ms : Z) : M unit := fun wd =>
  (tt, mkWorld (game wd) (render_ops wd) (log_messages wd)
         (borders_texture wd) (profiler wd ++ [(name, ms)]) (clock_reads wd)
         (draw_color wd)).

Definition get_milliseconds (env : Env) : M Z := fun wd =>
  (clock env (clock_reads wd),
   mkWorld (game wd) (render_ops wd) (log_messages wd)
     (borders_texture wd) (profiler wd) (S (clock_reads wd)) (draw_color wd)).

Definition get_game : M Game := fun wd => (game wd, wd).

(** [SDL_GetRenderDrawColor], [SDL_SetRenderDrawColor] and
    [SDL_RenderFillRect], which fills with the draw colour. *)
Definition get_render_draw_color : M Color := fun wd => (draw_color wd, wd).

Definition set_render_draw_color (color : Color) : M unit := fun wd =>
  (tt, mkWorld (game wd) (render_ops wd ++ [SetRenderDrawColor color])
         (log_messages wd) (borders_texture wd) (profiler wd) (clock_reads wd)
         color).

Definition render_fill_rect (rect : SDL_Rect) : M unit := fun wd =>
  render (RenderFillRect rect (draw_color wd)) wd.

Definition clear : M unit := render RenderClear.
Definition present : M unit := render RenderPresent.

Definition get_window_width (env : Env) : Z := window_width env.
Definition get_window_height (env : Env) : Z := window_height env.
Definition get_bar_height (env : Env) : Z := bar_height env.

(** Integer division in C truncates towards zero, and is undefined for a
    zero divisor: [get_tile_width] is what the code computes when the number
    of columns is not zero, and [get_tile_height] when the number of lines is
    not zero.  What is proved of the results of the functions that call them
    is proved under these conditions. *)
Definition get_tile_width (env : Env) : Z :=
  get_window_width env ÷ get_columns env.

Definition get_tile_height (env : Env) : Z :=
  (get_window_height env - get_bar_height env) ÷ get_lines env.

(** [print_absolute]; [string] is [None] for a [NULL] pointer. *)
Definition print_absolute (env : Env) (x y : Z) (string : option string)
    (color_pair : ColorPair) : M Code :=
  match string with
  | None => mret CODE_OK
  | Some EmptyString => mret CODE_OK
  | Some text =>
      if (x <? 0) || (y <? 0) then mret CODE_ERROR
      else
        match TTF_RenderText_Shaded env text with
        | None =>
            log_message "Failed to allocate text surface in print()" ;;
            mret CODE_ERROR
        | Some (sw, sh) =>
            if SDL_CreateTextureFromSurface env (sw, sh) then
              let texture :=
                TextTexture text (foreground color_pair) (background color_pair) sw sh in
              render (RenderCopy (Some texture) (mkRect x y sw sh)) ;;
              mret CODE_OK
            else
              log_message "Failed to create texture from surface in print()" ;;
              mret CODE_ERROR
        end
  end.

Definition print (env : Env) (x y : Z) (string : option string)
    (color_pair : ColorPair) : M Code :=
  let absolute_x := get_tile_width env * x in
  let absolute_y := get_bar_height env + get_tile_height env * (y - 1) in
  print_absolute env absolute_x absolute_y string color_pair.

(** A [for (x = start; x < limit; x += step)] loop. *)
Fixpoint for_loop (fuel : nat) (x limit step : Z) (body : Z -> M unit) : M unit :=
  match fuel with
  | O => mret tt
  | S fuel' =>
      if x <? limit then body x ;; for_loop fuel' (x + step) limit step body
      else mret tt
  end.

Definition invalid_border_limits (borders : BoundingBox.t) : bool :=
  let min_x := BoundingBox.min_x borders in
  let max_x := BoundingBox.max_x borders in
  let min_y := BoundingBox.min_y borders in
  let max_y := BoundingBox.max_y borders in
  (min_x <? 0) || (min_y <? 0) || (min_x >? max_x) || (min_y >? max_y).

(** [cache_borders_texture].  Once the limits are valid both loops run
    [full_width / x_step] and [full_height / y_step] times, which the fuel
    covers. *)
Definition cache_borders_texture (env : Env) (borders : BoundingBox.t) : M Code :=
  let fg := foreground (COLOR_PAIR_DEFAULT env) in
  let bg := background (COLOR_PAIR_DEFAULT env) in
  let x_step := get_tile_width env in
  let y_step := get_tile_height env in
  let min_x := BoundingBox.min_x borders in
  let max_x := BoundingBox.max_x borders in
  let min_y := BoundingBox.min_y borders in
  let max_y := BoundingBox.max_y borders in
  let full_width := (max_x - min_x + 1) * x_step in
  let full_height := (max_y - min_y + 1) * y_step in
  cached ← get_borders_texture;
  match cached with
  | Some _ => mret CODE_ERROR
  | None =>
      if invalid_border_limits borders then
        log_message "Got invalid border limits" ;;
        mret CODE_ERROR
      else
        let glyph_texture :=
          match TTF_RenderGlyph_Shaded env "+"%char with
          | Some (sw, sh) =>
              if SDL_CreateTextureFromSurface env (sw, sh)
              then Some (GlyphTexture "+"%char fg bg sw sh)
              else None
          | None => None
          end in
        if SDL_CreateTexture env full_width full_height then
          let full_texture := TargetTexture full_width full_height in
          let (pw, ph) :=
            match glyph_texture with
            | Some t => texture_size t
            | None => (0, 0)
            end in
          render (SetRenderTarget (Some full_texture)) ;;
          render RenderClear ;;
          for_loop (Z.to_nat full_width) 0 full_width x_step
            (fun x =>
               render (RenderCopy glyph_texture (mkRect x 0 pw ph)) ;;
               render (RenderCopy glyph_texture (mkRect x (full_height - y_step) pw ph))) ;;
          for_loop (Z.to_nat full_height) 0 full_height y_step
            (fun y =>
               render (RenderCopy glyph_texture (mkRect 0 y pw ph)) ;;
               render (RenderCopy glyph_texture (mkRect (full_width - x_step) y pw ph))) ;;
          render (SetRenderTarget None) ;;
          set_borders_texture (Some full_texture) ;;
          mret CODE_OK
        else
          log_message "Failed to create cached borders texture" ;;
          mret CODE_ERROR
  end.

Definition render_borders (env : Env) (borders : BoundingBox.t) : M Code :=
  let x_step := get_tile_width env in
  let y_step := get_tile_height env in
  let pos_x := BoundingBox.min_x borders * x_step in
  let pos_y := bar_height env + BoundingBox.min_y borders * y_step in
  cached ← get_borders_texture;
  match cached with
  | Some t =>
      let (pw, ph) := texture_size t in
      render (RenderCopy (Some t) (mkRect pos_x pos_y pw ph)) ;;
      mret CODE_OK
  | None =>
      cache_borders_texture env borders ;;
      cached ← get_borders_texture;
      match cached with
      | None => mret CODE_ERROR
      | Some t =>
          let (pw, ph) := texture_size t in
          render (RenderCopy (Some t) (mkRect pos_x pos_y pw ph)) ;;
          mret CODE_OK
      end
  end.

(** [print_centered]; the string is not checked against [NULL]. *)
Definition print_centered (env : Env) (y : Z) (string : string)
    (color_pair : ColorPair) : M Code :=
  let position_y := get_tile_height env * y in
  if y <? 0 then mret CODE_ERROR
  else
    match TTF_RenderText_Shaded env string with
    | None =>
        log_message "Failed to allocate text surface in print()" ;;
        mret CODE_ERROR
    | Some (sw, sh) =>
        if SDL_CreateTextureFromSurface env (sw, sh) then
          let texture :=
            TextTexture string (foreground color_pair) (background color_pair) sw sh in
          let position_x := (get_window_width env - sw) ÷ 2 in
          render (RenderCopy (Some texture) (mkRect position_x position_y sw sh)) ;;
          mret CODE_OK
        else
          log_message "Failed to create texture from surface in print()" ;;
          mret CODE_ERROR
    end.

(** The loop of [print_centered_horizontally], from index [i] on. *)
Fixpoint print_centered_horizontally_from (env : Env) (y slice_size : Z)
    (i : Z) (strings : list string) (color_pair : ColorPair) : M Code :=
  match strings with
  | [] => mret CODE_OK
  | s :: strings' =>
      match TTF_RenderText_Shaded env s with
      | None =>
          log_message "Failed to allocate text surface in print()" ;;
          mret CODE_ERROR
      | Some (sw, sh) =>
          if SDL_CreateTextureFromSurface env (sw, sh) then
            let texture :=
              TextTexture s (foreground color_pair) (background color_pair) sw sh in
            let position_x := i * slice_size + (slice_size - sw) ÷ 2 in
            render (RenderCopy (Some texture) (mkRect position_x y sw sh)) ;;
            print_centered_horizontally_from env y slice_size (i + 1) strings' color_pair
          else
            log_message "Failed to create texture from surface in print()" ;;
            mret CODE_ERROR
      end
  end.

(** [print_centered_horizontally]; [string_count] is the length of
    [strings]. *)
Definition print_centered_horizontally (env : Env) (y : Z)
    (strings : list string) (color_pair : ColorPair) : M Code :=
  let slice_size := get_window_width env ÷ Z.of_nat (length strings) in
  if y <? 0 then mret CODE_ERROR
  else print_centered_horizontally_from env y slice_size 0 strings color_pair.

(** [draw_absolute_rectangle] saves the draw colour of the renderer, fills
    the rectangle with [color] and sets the saved colour again. *)
Definition draw_absolute_rectangle (x y w h : Z) (color : Color) : M unit :=
  helper ← get_render_draw_color;
  set_render_draw_color color ;;
  render_fill_rect (mkRect x y w h) ;;
  set_render_draw_color helper.

Definition draw_rectangle (env : Env) (x y w h : Z) (color : Color) : M unit :=
  let x := x * get_tile_width env in
  let y := get_bar_height env + y * get_tile_height env in
  let w := w * get_tile_width env in
  let h := h * get_tile_height env in
  draw_absolute_rectangle x y w h color.

Definition GAME_NAME : string := "Walls of Doom".

(** [sprintf] with a ["%d"] conversion. *)
Definition sprintf_d (pre : string) (v : Z) : string :=
  (pre ++ NilZero.string_of_int (Z.to_int v))%string.

Definition write_top_bar_strings (env : Env) (strings : list string) : M unit :=
  let color_pair := COLOR_PAIR_TOP_BAR env in
  let y := (get_bar_height env - global_monospaced_font_height env) ÷ 2 in
  let h := get_bar_height env in
  let w := get_window_width env in
  draw_absolute_rectangle 0 0 w h (background color_pair) ;;
  print_centered_horizontally env y strings color_pair ;;
  mret tt.

Definition draw_top_bar (env : Env) (player : Player.t) : M Z :=
  let perk_name :=
    match Player.perk player with
    | PERK_NONE => "No Power"%string
    | p => get_perk_name env p
    end in
  let lives_buffer := sprintf_d "Lives: " (Player.lives player) in
  let score_buffer := sprintf_d "Score: " (Player.score player) in
  write_top_bar_strings env [GAME_NAME; perk_name; lives_buffer; score_buffer] ;;
  mret 0.

Definition write_bottom_bar_string (env : Env) (string : string) : M unit :=
  let x := global_monospaced_font_width env ÷ 2 in
  let bar_start := get_window_height env - get_bar_height env in
  let padding := (get_bar_height env - global_monospaced_font_height env) ÷ 2 in
  let y := bar_start + padding in
  print_absolute env x y (Some string) (COLOR_PAIR_BOTTOM_BAR env) ;;
  mret tt.

Definition draw_bottom_bar (env : Env) (message : string) : M unit :=
  let color := background (COLOR_PAIR_BOTTOM_BAR env) in
  let y := get_window_height env - bar_height env in
  let w := get_window_width env in
  let h := get_bar_height env in
  draw_absolute_rectangle 0 y w h color ;;
  write_bottom_bar_string env message.

Definition draw_borders (env : Env) : M unit :=
  let borders :=
    BoundingBox.mk 0 0 (get_columns env - 1) (get_lines env - 1) in
  render_borders env borders ;;
  mret tt.

Fixpoint draw_platforms (env : Env) (platforms : list Platform.t)
    (box : BoundingBox.t) : M Z :=
  match platforms with
  | [] => mret 0
  | p :: platforms' =>
      let x := Z.max (BoundingBox.min_x box) (Platform.x p) in
      let y := Platform.y p in
      let w := Z.min (BoundingBox.max_x box)
                     (Platform.x p + Platform.width p - 1) - x + 1 in
      draw_rectangle env x y w 1 (foreground (COLOR_PAIR_PLATFORM env)) ;;
      draw_platforms env platforms' box
  end.

Definition has_active_perk (game : Game) : bool :=
  negb (Perk_eqb (perk game) PERK_NONE).

Definition draw_perk (env : Env) (game : Game) : M Z :=
  let color := background (COLOR_PAIR_PERK env) in
  (if has_active_perk game
   then draw_rectangle env (perk_x game) (perk_y game) 1 1 color
   else mret tt) ;;
  mret 0.

Definition draw_player (env : Env) (player : Player.t) : M Code :=
  let x := Player.x player in
  let y := Player.y player in
  draw_rectangle env x y 1 1 (foreground (COLOR_PAIR_PLAYER env)) ;;
  mret CODE_OK.

(** One profiled step of [draw_game]. *)
Definition profiled {A : Type} (env : Env) (name : string) (step : M A) : M unit :=
  start ← get_milliseconds env;
  step ;;
  now ← get_milliseconds env;
  update_profiler name (now - start).

(** [draw_game]: the game is read through the [const Game *] of the world. *)
Definition draw_game (env : Env) : M Z :=
  draw_game_start ← get_milliseconds env;
  game ← get_game;
  profiled env "draw_game:clear" clear ;;
  profiled env "draw_game:draw_top_bar" (draw_top_bar env (player game)) ;;
  profiled env "draw_game:draw_bottom_bar" (draw_bottom_bar env (message game)) ;;
  profiled env "draw_game:draw_borders" (draw_borders env) ;;
  profiled env "draw_game:draw_platforms"
    (draw_platforms env (platforms game) (box game)) ;;
  profiled env "draw_game:draw_perk" (draw_perk env game) ;;
  profiled env "draw_game:draw_player" (draw_player env (player game)) ;;
  profiled env "draw_game:present" present ;;
  now ← get_milliseconds env;
  update_profiler "draw_game" (now - draw_game_start) ;;
  now ← get_milliseconds env;
  mret (now - draw_game_start).

(** A concrete environment and world, for the examples. *)
Definition example_color_pair : ColorPair :=
  mkColorPair (mkColor 255 255 255 255) (mkColor 0 0 0 255).

Definition example_env : Env :=
  mkEnv 800 640 20 10 20 80 30 2
        example_color_pair example_color_pair example_color_pair
        example_color_pair example_color_pair example_color_pair
        (fun _ => "Perk"%string)
        (fun s => Some (10 * Z.of_nat (String.length s), 20))
        (fun _ => Some (10, 20))
        (fun _ => true) (fun _ _ => true)
        (fun n => 1000 + 3 * Z.of_nat n).

Definition example_game : Game :=
  mkGame (Player.mk 4 9 3 120 PERK_POWER_LEVITATION)
         [Platform.mk 5 10 4; Platform.mk 70 12 20]
         7 7 5 1000 false 10 20 PERK_BONUS_EXTRA_LIFE 12 8 900
         (BoundingBox.mk 1 1 78 28) 28 78 2184 (replicate 2184 0)
         "Welcome" 60 1.

Definition example_world : World :=
  mkWorld example_game [] [] None [] 0 (mkColor 0 0 0 255).

(** *** Input *)

(** [command_from_event]. *)
Definition command_from_event (event : SDL_Event) : Command :=
  if type event =? SDL_QUIT then COMMAND_CLOSE
  else if type event =? SDL_KEYDOWN then
    let keycode := key_keysym_sym event in
    if (keycode =? SDLK_KP_8) || (keycode =? SDLK_UP) then COMMAND_UP
    else if (keycode =? SDLK_KP_4) || (keycode =? SDLK_LEFT) then COMMAND_LEFT
    else if keycode =? SDLK_KP_5 then COMMAND_CENTER
    else if (keycode =? SDLK_KP_6) || (keycode =? SDLK_RIGHT) then COMMAND_RIGHT
    else if (keycode =? SDLK_KP_2) || (keycode =? SDLK_DOWN) then COMMAND_DOWN
    else if keycode =? SDLK_SPACE then COMMAND_JUMP
    else if (keycode =? SDLK_RETURN) || (keycode =? SDLK_KP_ENTER) then COMMAND_ENTER
    else if keycode =? SDLK_c then COMMAND_CONVERT
    else if keycode =? SDLK_q then COMMAND_QUIT
    else COMMAND_NONE
  else COMMAND_NONE.

(** [SDL_PollEvent] on the queue of pending events: the oldest event is
    removed and returned, if there is one. *)
Definition SDL_PollEvent (queue : list SDL_Event)
  : option (SDL_Event * list SDL_Event) :=
  match queue with
  | [] => None
  | event :: queue' => Some (event, queue')
  end.

(** The loop of [read_next_command]: one iteration for each pending event. *)
Fixpoint read_next_command_loop (queue : list SDL_Event)
    (last_valid_command : Command) : Command * list SDL_Event :=
  match queue with
  | [] => (last_valid_command, [])
  | event :: queue' =>
      let current := command_from_event event in
      read_next_command_loop queue'
        (if is_command_none current then last_valid_command else current)
  end.

(** [read_next_command] returns the command and the queue it leaves. *)
Definition read_next_command (queue : list SDL_Event)
  : Command * list SDL_Event :=
  read_next_command_loop queue COMMAND_NONE.

(** The last command of a sequence that is not [COMMAND_NONE], or
    [COMMAND_NONE] when there is none. *)
Definition last_meaningful (commands : list Command) : Command :=
  default COMMAND_NONE
    (last (List.filter (fun c => negb (is_command_none c)) commands)).

(** [isalnum] in the C locale. *)
Definition isalnum (c : ascii) : bool :=
  let n := N_of_ascii c in
  ((48 <=? n) && (n <=? 57) || (65 <=? n) && (n <=? 90)
   || (97 <=? n) && (n <=? 122))%N.

Definition is_valid_input_character (c : ascii) : bool := isalnum c.

Definition NUL : ascii := Ascii.zero.

Definition is_NUL (c : ascii) : bool := (N_of_ascii c =? 0)%N.

(** [strlen] on a buffer: the offset of its first NUL, if it has one. *)
Fixpoint strlen (buffer : list ascii) : option nat :=
  match buffer with
  | [] => None
  | c :: buffer' => if is_NUL c then Some O else S <$> strlen buffer'
  end.

(** The variables of [read_string] that its loop changes: the buffer behind
    [destination], [written] (the [write] pointer is
    [destination + written]), [should_rerender], and, for the record, the
    offsets in the buffer that have been stored to. *)
Record ReadState : Type := mkReadState {
  destination : list ascii;
  written : nat;
  should_rerender : bool;
  stores : list nat
}.

(** [*(destination + i) = c]. *)
Definition store (i : nat) (c : ascii) (st : ReadState) : ReadState :=
  mkReadState (<[i := c]> (destination st)) (written st) (should_rerender st)
              (stores st ++ [i]).

(** One event handled by the loop of [read_string]: either the function
    returns a code or the loop goes on. *)
Definition read_string_event (size : nat) (event : SDL_Event) (st : ReadState)
  : Code + ReadState :=
  if type event =? SDL_QUIT then inl CODE_QUIT
  else if type event =? SDL_KEYDOWN then
    if (key_keysym_sym event =? SDLK_BACKSPACE) && (0 <? written st)%nat then
      let st := store (written st - 1) NUL st in
      inr (mkReadState (destination st) (written st - 1) true (stores st))
    else if key_keysym_sym event =? SDLK_RETURN then inl CODE_OK
    else inr st
  else if type event =? SDL_TEXTINPUT then
    let character := text_text_0 event in
    if is_valid_input_character character && (written st + 1 <? size)%nat then
      let st := store (written st) character st in
      let st := store (written st + 1) NUL st in
      inr (mkReadState (destination st) (written st + 1) true (stores st))
    else inr st
  else inr st.

(** The loop of [read_string] over the results of the successive
    [SDL_WaitEvent] calls ([None] when the call fails).  The screen is
    rendered again, from the buffer, whenever [should_rerender] is set.  The
    result is the returned code, or [None] while the function is still
    waiting for an event, and the state of the buffer. *)
Fixpoint read_string_loop (size : nat) (events : list (option SDL_Event))
    (st : ReadState) : option Code * ReadState :=
  let st := mkReadState (destination st) (written st) false (stores st) in
  match events with
  | [] => (None, st)
  | None :: events' => read_string_loop size events' st
  | Some event :: events' =>
      match read_string_event size event st with
      | inl code => (Some code, st)
      | inr st' => read_string_loop size events' st'
      end
  end.

(** [read_string]; [None] when [destination] holds no NUL, for which
    [strlen] is undefined. *)
Definition read_string (size : nat) (buffer : list ascii)
    (events : list (option SDL_Event)) : option (option Code * ReadState) :=
  match strlen buffer with
  | Some n => Some (read_string_loop size events (mkReadState buffer n true []))
  | None => None
  end.

(** A computation that changes neither the game nor the number of clock
    readings. *)
Definition preserves {A : Type} (m : M A) : Prop :=
  forall wd, game (snd (m wd)) = game wd /\
             clock_reads (snd (m wd)) = clock_reads wd.

(** A computation that leaves the game alone and reads the clock [n]
    times. *)
Definition ticks {A : Type} (n : nat) (m : M A) : Prop :=
  forall wd, game (snd (m wd)) = game wd /\
             clock_reads (snd (m wd)) = (clock_reads wd + n)%nat.

(** A computation that leaves the game alone and returns the reading of the
    clock [n] readings ahead, minus [start]. *)
Definition elapsed_since (env : Env) (n : nat) (start : Z) (m : M Z) : Prop :=
  forall wd, game (snd (m wd)) = game wd /\
             fst (m wd) = clock env (clock_reads wd + n)%nat - start.

(** The invariant of the loop of [read_string]. *)
Record buffer_ok (size : nat) (st : ReadState) : Prop := {
  ok_strlen : strlen (destination st) = Some (written st);
  ok_written : (written st < size)%nat;
  ok_size : (size <= length (destination st))%nat;
  ok_stores : Forall (fun i => (i < size)%nat) (stores st)
}.

(** A buffer of eight characters holding ["Ab"], and a session in which the
    user types more characters than fit in six. *)
Definition example_buffer : list ascii :=
  ["A"; "b"; NUL; "x"; "y"; "z"; NUL; NUL]%char.

Definition text_input (c : ascii) : option SDL_Event :=
  Some (mkEvent SDL_TEXTINPUT 0 c).

Definition key_down (sym : Z) : option SDL_Event :=
  Some (mkEvent SDL_KEYDOWN sym NUL).

Definition example_events : list (option SDL_Event) :=
  [text_input "c"; text_input "!"; key_down SDLK_BACKSPACE; None;
   text_input "d"; text_input "e"; text_input "f"; text_input "g";
   key_down SDLK_BACKSPACE; text_input "7"; key_down SDLK_RETURN;
   text_input "h"]%char.

End IO.

(* ===================================================================== *)
(** ** More of the random source: states that are not all zero *)
(* ===================================================================== *)

Module RandomMore.
Import Random.

(** A state of 64-bit values that are not all zero. *)
Definition live_state (s : State) : Prop := valid_state s /\ ~ all_zero s.

(** [isspace] in the C locale. *)
Definition isspace (c : ascii) : bool :=
  let n := N_of_ascii c in
  ((n =? 32) || (9 <=? n) && (n <=? 13))%N.

Definition is_line_feed (c : ascii) : bool := (N_of_ascii c =? 10)%N.

(** The first loop of [random_word]: [file] holds the characters that
    [fgetc] has not returned yet; at the end of the file every [fgetc]
    returns [EOF]. *)
Fixpoint skip_lines (file : list ascii) (current_line chosen_line : Z)
  : list ascii :=
  if current_line =? chosen_line then file
  else
    match file with
    | [] => []
    | c :: file' =>
        skip_lines file'
          (if is_line_feed c then current_line + 1 else current_line)
          chosen_line
    end.

(** The second loop of [random_word]. *)
Fixpoint read_word (file : list ascii) : list ascii :=
  match file with
  | [] => []
  | c :: file' => if isspace c then [] else c :: read_word file'
  end.

(** [random_word]; [line_count] is what [file_line_count] returns for the
    file and [file] what [fopen] gives: the characters of the file, or
    [None] for a null pointer. *)
Definition random_word (fuel : nat) (line_count : Z) (file : option (list ascii))
    (s : State) : option (list ascii * State) :=
  if line_count >? 0 then
    match random_integer fuel 0 (line_count - 1) s with
    | None => None
    | Some (chosen_line, s') =>
        match file with
        | Some characters =>
            Some (read_word (skip_lines characters 0 chosen_line), s')
        | None => Some ([], s')
        end
    end
  else Some ([], s).


End RandomMore.

(* ===================================================================== *)
(** ** The text helpers of [walls-of-doom/io.c] *)
(* ===================================================================== *)

Module Text.
Import IO.

Definition newline : ascii := "010"%char.
Definition space : ascii := " "%char.

Definition is_newline (c : ascii) : bool := (N_of_ascii c =? 10)%N.

(** The characters of a C string: those before the first NUL of the
    buffer. *)
Fixpoint c_string (buffer : list ascii) : list ascii :=
  match buffer with
  | [] => []
  | c :: buffer' => if is_NUL c then [] else c :: c_string buffer'
  end.

(** The loop of [remove_first_breaks], from the character that [string]
    starts with; the characters behind the NUL are not visited. *)
Fixpoint remove_first_breaks_loop (string : list ascii) (preserve : bool)
  : list ascii :=
  match string with
  | [] => []
  | c :: string' =>
      if is_NUL c then c :: string'
      else if is_newline c then
        if preserve then c :: remove_first_breaks_loop string' true
        else space :: remove_first_breaks_loop string' true
      else c :: remove_first_breaks_loop string' false
  end.

(** [remove_first_breaks]: the buffer after the call. *)
Definition remove_first_breaks (string : list ascii) : list ascii :=
  remove_first_breaks_loop string false.

(** [count_lines]. *)
Fixpoint count_lines (buffer : list ascii) : nat :=
  match buffer with
  | [] => 0
  | c :: buffer' =>
      if is_NUL c then 0
      else ((if is_newline c then 1 else 0) + count_lines buffer')%nat
  end.

(** The loop of [copy_first_line]: [source] holds the characters from the
    source pointer on and [offset] is the number of characters copied so
    far, which is the offset of both pointers. *)
Fixpoint copy_first_line_loop (source destination : list ascii) (offset : nat)
  : list ascii * nat :=
  match source with
  | [] => (destination, offset)
  | c :: source' =>
      if is_NUL c then (<[offset := NUL]> destination, offset)
      else if is_newline c then (<[offset := NUL]> destination, S offset)
      else copy_first_line_loop source' (<[offset := c]> destination) (S offset)
  end.

(** [copy_first_line]: the destination buffer after the call and the offset
    in [source] of the returned pointer. *)
Definition copy_first_line (source destination : list ascii)
  : list ascii * nat :=
  copy_first_line_loop source destination 0.

(** Buffers for the examples: a text of three lines, the second one empty,
    and an empty destination of sixteen characters. *)
Definition example_text : list ascii :=
  ["o"; "n"; "e"; newline; newline; "t"; "w"; "o"; NUL; "?"]%char.

Definition example_destination : list ascii := replicate 16 NUL.

Definition example_paragraph : list ascii :=
  ["a"; "b"; newline; "c"; "d"; newline; "e"; NUL]%char.

(** No two line breaks in a row in the string. *)
Fixpoint single_breaks (string : list ascii) (after_break : bool) : bool :=
  match string with
  | [] => true
  | c :: string' =>
      if is_NUL c then true
      else if is_newline c then negb after_break && single_breaks string' true
      else single_breaks string' false
  end.

End Text.

(* ===================================================================== *)
(** ** More of [walls-of-doom/io.c] *)
(* ===================================================================== *)

Module IOMore.
Import SDL IO Text.

Definition MINIMUM_BAR_HEIGHT : Z := 20.

Definition ELLIPSIS_STRING : string := "...".
Definition ELLIPSIS_LENGTH : nat := String.length ELLIPSIS_STRING.
Definition MINIMUM_STRING_SIZE_FOR_ELLIPSIS : nat := 2 * ELLIPSIS_LENGTH.

(** The computation of [create_window]: [size] is what [SDL_GetWindowSize]
    reports for the new window; the result is the width, the height and the
    bar height that the function stores. *)
Definition create_window (env : Env) (size : Z * Z) : Z * Z * Z :=
  let (width, height) := size in
  let line_height := (height - 2 * MINIMUM_BAR_HEIGHT) ÷ get_lines env in
  let bar_height := (height - get_lines env * line_height) ÷ 2 in
  (width, height, bar_height).

(** [bounding_box_from_screen]. *)
Definition bounding_box_from_screen (env : Env) : BoundingBox.t :=
  BoundingBox.mk 1 1 (get_columns env - 2) (get_lines env - 2).

(** The C string that starts at an offset of a buffer. *)
Definition string_at (buffer : list ascii) (offset : nat) : string :=
  string_of_list_ascii (c_string (drop offset buffer)).

(** [print_limited]; [string] is the buffer that holds the string, so that
    the string read at the advanced pointer is defined. *)
Definition print_limited (env : Env) (x y : Z) (string : list ascii)
    (limit : nat) : M unit :=
  let string_length := length (c_string string) in
  if (limit <? 1)%nat then mret tt
  else if (string_length <? limit)%nat then
    print env x y (Some (string_at string 0)) (COLOR_PAIR_DEFAULT env);;
    mret tt
  else
    (if (MINIMUM_STRING_SIZE_FOR_ELLIPSIS <=? limit)%nat
     then print env x y (Some ELLIPSIS_STRING) (COLOR_PAIR_DEFAULT env);;
          mret tt
     else mret tt);;
    let offset := (string_length - limit + ELLIPSIS_LENGTH)%nat in
    print env (x + Z.of_nat ELLIPSIS_LENGTH) y (Some (string_at string offset))
          (COLOR_PAIR_DEFAULT env);;
    mret tt.

(** The loop of [print_centered_vertically]. *)
Fixpoint print_centered_vertically_loop (env : Env) (y : Z)
    (strings : list string) (color_pair : ColorPair) : M unit :=
  match strings with
  | [] => mret tt
  | s :: strings' =>
      print_centered_horizontally env y [s] color_pair;;
      print_centered_vertically_loop env
        (y + global_monospaced_font_height env) strings' color_pair
  end.

(** [print_centered_vertically]; [string_count] is the length of
    [strings]. *)
Definition print_centered_vertically (env : Env) (strings : list string)
    (color_pair : ColorPair) : M Code :=
  let text_line_height := global_monospaced_font_height env in
  let text_lines_limit := get_window_height env ÷ text_line_height in
  let string_count := Z.of_nat (length strings) in
  let string_count :=
    if string_count >? text_lines_limit then text_lines_limit
    else string_count in
  let y := (get_window_height env - string_count * text_line_height) ÷ 2 in
  print_centered_vertically_loop env y (take (Z.to_nat string_count) strings)
    color_pair;;
  mret CODE_OK.

(** [wait_for_next_command] over the results of the successive
    [SDL_WaitEvent] calls ([None] when a call fails): the command and the
    results that were not consumed, or [None] while the function is still
    waiting. *)
Fixpoint wait_for_next_command (events : list (option SDL_Event))
  : option (Command * list (option SDL_Event)) :=
  match events with
  | [] => None
  | None :: events' => wait_for_next_command events'
  | Some event :: events' =>
      let command := command_from_event event in
      if is_command_none command then wait_for_next_command events'
      else Some (command, events')
  end.

(** [wait_for_input], in the same way. *)
Fixpoint wait_for_input (events : list (option SDL_Event))
  : option (Code * list (option SDL_Event)) :=
  match events with
  | [] => None
  | None :: events' => Some (CODE_ERROR, events')
  | Some event :: events' =>
      if type event =? SDL_QUIT then Some (CODE_QUIT, events')
      else if type event =? SDL_KEYDOWN then Some (CODE_OK, events')
      else wait_for_input events'
  end.

(** A computation that only appends to the calls received by the renderer,
    and only calls that satisfy [P]. *)
Definition draws {A : Type} (P : RenderOp -> Prop) (m : M A) : Prop :=
  forall wd, exists ops,
    render_ops (snd (m wd)) = render_ops wd ++ ops /\ Forall P ops.

(** A text drawn in the columns from [x] on and before [x + limit], the
    columns being those of [print]. *)
Definition text_within (env : Env) (x : Z) (limit : nat) (op : RenderOp) : Prop :=
  exists text fg bg sw sh column py,
    op = RenderCopy (Some (TextTexture text fg bg sw sh))
                    (mkRect (get_tile_width env * column) py sw sh) /\
    x <= column /\
    column + Z.of_nat (String.length text) <= x + Z.of_nat limit.

(** A texture copied to a rectangle that starts between the top of the
    window and one line height above its bottom. *)
Definition line_within (env : Env) (op : RenderOp) : Prop :=
  exists texture rect,
    op = RenderCopy texture rect /\
    0 <= SDL.y rect /\
    SDL.y rect + global_monospaced_font_height env <= get_window_height env.

(** What the renderer receives from one [draw_absolute_rectangle]: [color]
    is set, the rectangle is filled with it, and the colour [restore] is set
    again. *)
Definition fill_ops (color restore : Color) (rect : SDL_Rect) : list RenderOp :=
  [SetRenderDrawColor color; RenderFillRect rect color;
   SetRenderDrawColor restore].

(** The columns that a platform shares with a box. *)
Definition shared_column (box : BoundingBox.t) (p : Platform.t) (column : Z)
  : Prop :=
  BoundingBox.min_x box <= column <= BoundingBox.max_x box /\
  Platform.x p <= column < Platform.x p + Platform.width p.

(** A rectangle that is the row of tiles of a platform over the columns that
    the platform shares with a box: it starts at the left edge of the column
    [first] and is [count] columns wide, and these are the shared columns
    (none when [count] is not positive). *)
Definition platform_rectangle (env : Env) (box : BoundingBox.t)
    (p : Platform.t) (rect : SDL_Rect) : Prop :=
  SDL.y rect = get_bar_height env + Platform.y p * get_tile_height env /\
  SDL.h rect = get_tile_height env /\
  exists first count,
    SDL.x rect = first * get_tile_width env /\
    SDL.w rect = count * get_tile_width env /\
    forall column,
      first <= column < first + count <-> shared_column box p column.


(** An event that [wait_for_next_command] passes over. *)
Definition no_command (event : option SDL_Event) : Prop :=
  match event with
  | None => True
  | Some e => is_command_none (command_from_event e) = true
  end.

(** For the examples: a name in a buffer, the world once the borders are
    cached, and the limits of a small frame. *)
Definition example_name : list ascii :=
  ["G"; "r"; "e"; "a"; "t"; "H"; "e"; "r"; "o"; NUL; "x"; NUL]%char.

Definition example_cached_texture : Texture := TargetTexture 800 600.

Definition example_world_cached : World :=
  mkWorld example_game [RenderClear] [] (Some example_cached_texture) [] 0
          (mkColor 0 0 0 255).

Definition example_borders : BoundingBox.t := BoundingBox.mk 0 0 3 2.

Definition keyboard_command (c : Command) : bool :=
  match c with
  | COMMAND_PAUSE | COMMAND_INVEST => false
  | _ => true
  end.

End IOMore.

(* ===================================================================== *)
(** ** The joystick ([joystick.c], src/unnamed/part_000) *)
(* ===================================================================== *)

Module Joystick.
Import IO.

(** [SDL_EventType]. *)
Definition SDL_JOYAXISMOTION : Z := 0x600.
Definition SDL_JOYBUTTONDOWN : Z := 0x603.

Definition JOYSTICK_DEAD_ZONE : Z := 4096.

Definition XBOX_A : Z := 0.
Definition XBOX_B : Z := 1.
Definition XBOX_X : Z := 2.
Definition XBOX_Y : Z := 3.
Definition XBOX_BACK : Z := 4.
Definition XBOX_START : Z := 6.

Definition DUALSHOCK_TRIANGLE : Z := XBOX_Y.
Definition DUALSHOCK_CIRCLE : Z := XBOX_B.
Definition DUALSHOCK_CROSS : Z := XBOX_A.
Definition DUALSHOCK_SELECT : Z := XBOX_BACK.
Definition DUALSHOCK_START : Z := XBOX_START.

(** [SDL_Event]: [type], [jbutton.button], [jaxis.axis] and
    [jaxis.value]. *)
Record SDL_JoyEvent : Type := mkJoyEvent {
  type : Z;
  jbutton_button : Z;
  jaxis_axis : Z;
  jaxis_value : Z
}.

(** [command_from_joystick_event]. *)
Definition command_from_joystick_event (event : SDL_JoyEvent) : Command :=
  if type event =? SDL_JOYBUTTONDOWN then
    if jbutton_button event =? DUALSHOCK_TRIANGLE then COMMAND_INVEST
    else if jbutton_button event =? DUALSHOCK_CIRCLE then COMMAND_CONVERT
    else if jbutton_button event =? DUALSHOCK_CROSS then COMMAND_JUMP
    else if jbutton_button event =? DUALSHOCK_START then COMMAND_ENTER
    else if jbutton_button event =? DUALSHOCK_SELECT then COMMAND_PAUSE
    else COMMAND_NONE
  else if type event =? SDL_JOYAXISMOTION then
    if Z.abs (jaxis_value event) >? JOYSTICK_DEAD_ZONE then
      if jaxis_axis event =? 0 then
        if jaxis_value event >? 0 then COMMAND_RIGHT else COMMAND_LEFT
      else
        if jaxis_value event >? 0 then COMMAND_DOWN else COMMAND_UP
    else COMMAND_NONE
  else COMMAND_NONE.

End Joystick.

(* ===================================================================== *)
(** ** The entry point ([sources/main.cpp]) *)
(* ===================================================================== *)

Module Main.

Inductive ParserResult : Type := PARSER_RESULT_CONTINUE | PARSER_RESULT_QUIT.

(** What the program lets out: a text on the standard output, a message in
    the log, or the start of the session (the body of the [try] block). *)
Inductive Output : Type :=
| Printed (text : string)
| Logged (message : string)
| SessionStarted.

Definition log_unrecognized_argument (argument : string) : list Output :=
  [Logged ("Unrecognized argument: " ++ argument ++ ".")%string].

(** [parse_argument]; [version] is [WALLS_OF_DOOM_VERSION]. *)
Definition parse_argument (version argument : string)
  : ParserResult * list Output :=
  if String.eqb argument "--version"
  then (PARSER_RESULT_QUIT, [Printed (version ++ String "010"%char EmptyString)%string])
  else (PARSER_RESULT_QUIT, log_unrecognized_argument argument).

(** The loop of [main] over the arguments from [argv[i]] on. *)
Fixpoint parse_arguments (version : string) (arguments : list string)
    (quit : bool) : bool * list Output :=
  match arguments with
  | [] => (quit, [])
  | argument :: arguments' =>
      if quit then (quit, [])
      else
        let (result, out) := parse_argument version argument in
        let quit :=
          match result with
          | PARSER_RESULT_QUIT => true
          | PARSER_RESULT_CONTINUE => quit
          end in
        let (quit, outs) := parse_arguments version arguments' quit in
        (quit, out ++ outs)
  end.

(** [main]; [argv] includes the name of the program, and [session] is what
    the [try] block does once entered: the result of [main_menu], or the
    message of the exception that is caught. *)
Definition main (version : string) (argv : list string) (session : Z + string)
  : Z * list Output :=
  let (quit, outs) := parse_arguments version (tail argv) false in
  if quit then (0, outs)
  else
    match session with
    | inl result => (result, outs ++ [SessionStarted])
    | inr what =>
        (0, outs ++ [SessionStarted;
                     Printed ("Caught an exception. " ++ what
                              ++ String "010"%char EmptyString)%string])
    end.

End Main.

(* ===================================================================== *)
(** ** Properties of the random source *)
(* ===================================================================== *)

Module RandomSpec.
Import Random.

(** *** [find_next_power_of_two] *)

(** The function of the model satisfies the equation of the source loop:
    [while (number != 0) { number >>= 1; result <<= 1; }]. *)
Lemma fnp2_loop_unfold (number result : Z) :
  0 <= number ->
  fnp2_loop number result =
    if number =? 0 then result
    else fnp2_loop (Z.shiftr number 1) (wrap_u64 (Z.shiftl result 1)).
Proof.
  intros Hn. destruct number as [|p|p]; [reflexivity| |lia].
  destruct p; reflexivity.
Qed.

Lemma fnp2_loop_pos_pow (p : positive) (r : Z) :
  fnp2_loop_pos p r = wrap_u64 (r * 2 ^ Z.pos (Pos.size p)).
Proof.
  unfold wrap_u64. revert r.
  induction p as [p IH|p IH|]; intros r; cbn [fnp2_loop_pos Pos.size].
  1,2: rewrite IH; unfold wrap_u64; rewrite Z.shiftl_mul_pow2 by lia;
       rewrite Z.mul_mod_idemp_l by lia;
       rewrite Pos2Z.inj_succ, Z.pow_succ_r by lia;
       f_equal; ring.
  unfold wrap_u64. rewrite Z.shiftl_mul_pow2 by lia. reflexivity.
Qed.

Lemma pos_size_bounds (p : positive) :
  2 ^ (Z.pos (Pos.size p) - 1) <= Z.pos p < 2 ^ Z.pos (Pos.size p).
Proof.
  induction p as [p IH|p IH|]; cbn [Pos.size].
  1,2: rewrite Pos2Z.inj_succ;
       replace (Z.succ (Z.pos (Pos.size p)) - 1) with (Z.succ (Z.pos (Pos.size p) - 1)) by lia;
       rewrite !Z.pow_succ_r by lia; lia.
  cbn. lia.
Qed.

Lemma find_next_power_of_two_pos (p : positive) :
  Z.pos p < 2 ^ 63 ->
  find_next_power_of_two (Z.pos p) = 2 ^ Z.pos (Pos.size p).
Proof.
  intros Hp. unfold find_next_power_of_two, fnp2_loop.
  rewrite fnp2_loop_pos_pow, Z.mul_1_l. unfold wrap_u64.
  apply Z.mod_small. split; [apply Z.pow_nonneg; lia|].
  pose proof (pos_size_bounds p) as [Hlo _].
  assert (Hs : Z.pos (Pos.size p) - 1 < 63).
  { apply (Z.pow_lt_mono_r_iff 2); lia. }
  apply Z.pow_lt_mono_r; lia.
Qed.

(** The values checked by
    [test_find_next_power_of_two_works_for_all_integers]. *)
Example find_next_power_of_two_tested :
  find_next_power_of_two 0 = 1 /\ find_next_power_of_two 1 = 2 /\
  find_next_power_of_two 2 = 4 /\ find_next_power_of_two 3 = 4 /\
  find_next_power_of_two 4 = 8.
Proof. repeat split. Qed.

(** A 64-bit argument with its highest bit set makes [result] wrap to zero. *)
Example find_next_power_of_two_wraps :
  find_next_power_of_two (2 ^ 63) = 0.
Proof. reflexivity. Qed.

(** C3, as stated, fails: 1 is a power of two and 1 >= 1, yet
    [find_next_power_of_two 1] is 2, so the result is not the smallest power
    of two greater than or equal to the argument. *)
Lemma find_next_power_of_two_not_smallest_ge :
  ~ smallest_power_of_two_ge 1 (find_next_power_of_two 1).
Proof.
  intros (_ & _ & Hmin). specialize (Hmin 0).
  change (find_next_power_of_two 1) with 2 in Hmin.
  cbn in Hmin. lia.
Qed.

(** C3 (amended): for every [n] with [0 <= n < 2^63],
    [find_next_power_of_two n] is the smallest power of two strictly greater
    than [n]; in particular 0, 1, 2, 3 and 4 are mapped to 1, 2, 4, 4 and 8. *)
Theorem find_next_power_of_two_smallest_gt (n : Z) (Hn : 0 <= n < 2 ^ 63) :
  smallest_power_of_two_gt n (find_next_power_of_two n) /\
  find_next_power_of_two 0 = 1 /\ find_next_power_of_two 1 = 2 /\
  find_next_power_of_two 2 = 4 /\ find_next_power_of_two 3 = 4 /\
  find_next_power_of_two 4 = 8.
Proof.
  split; [|exact find_next_power_of_two_tested].
  destruct n as [|p|p]; [| |lia].
  - change (find_next_power_of_two 0) with 1.
    split; [exists 0; split; [lia|reflexivity]|].
    split; [lia|]. intros k Hk _.
    change 1 with (2 ^ 0). apply Z.pow_le_mono_r; lia.
  - rewrite find_next_power_of_two_pos by lia.
    pose proof (pos_size_bounds p) as [Hlo Hhi].
    split; [exists (Z.pos (Pos.size p)); split; [lia|reflexivity]|].
    split; [exact Hhi|]. intros k Hk Hlt.
    apply Z.pow_le_mono_r; [lia|].
    assert (Z.pos (Pos.size p) - 1 < k); [|lia].
    apply (Z.pow_lt_mono_r_iff 2); lia.
Qed.

Lemma find_next_power_of_two_smallest_gt_witness :
  smallest_power_of_two_gt 5 (find_next_power_of_two 5) /\
  find_next_power_of_two 0 = 1 /\ find_next_power_of_two 1 = 2 /\
  find_next_power_of_two 2 = 4 /\ find_next_power_of_two 3 = 4 /\
  find_next_power_of_two 4 = 8.
Proof. apply (find_next_power_of_two_smallest_gt 5). lia. Defined.

(** *** [seed_random] *)

(** Whenever the clock value is not a multiple of 2^64 the seeded state has
    a nonzero [x]. *)
Lemma seed_random_nonzero (time : Z) (s : State) :
  time mod 2 ^ 64 <> 0 -> ~ all_zero (seed_random time s).
Proof. intros Ht (Hx & _). apply Ht. exact Hx. Qed.

(** The program only ever holds valid states: the statics start at zero and
    [seed_random] stores a [U64]. *)
Lemma seed_random_valid (time : Z) (s : State) :
  valid_state s -> valid_state (seed_random time s).
Proof.
  intros (_ & Hy & Hz & Hw). repeat split; try apply Hy; try apply Hz;
    try apply Hw; apply Z.mod_pos_bound; lia.
Qed.

(** C5: [seed_random] only assigns [x], from the clock.  When it is the
    first call on the zero-initialised statics and [time(nullptr)] returns 0
    (the epoch), all four state variables are zero afterwards. *)
Theorem seed_random_epoch_all_zero :
  all_zero (seed_random 0 initial_state).
Proof. repeat split. Qed.

(** *** Linearity of the generator *)

Ltac bitwise :=
  apply Z.bits_inj'; intros ? ?;
  repeat first [rewrite Z.lxor_spec | rewrite Z.land_spec];
  btauto.

Lemma lxor_swap (a b c d : Z) :
  Z.lxor (Z.lxor a b) (Z.lxor c d) = Z.lxor (Z.lxor a c) (Z.lxor b d).
Proof. bitwise. Qed.

Lemma wrap_u64_land (a : Z) : wrap_u64 a = Z.land a (Z.ones 64).
Proof. unfold wrap_u64. now rewrite Z.land_ones by lia. Qed.

Lemma wrap_u64_lxor (a b : Z) :
  wrap_u64 (Z.lxor a b) = Z.lxor (wrap_u64 a) (wrap_u64 b).
Proof. rewrite !wrap_u64_land. bitwise. Qed.

Lemma wrap_u64_range (a : Z) : is_u64 (wrap_u64 a).
Proof. apply Z.mod_pos_bound. lia. Qed.

Lemma wrap_u64_small (a : Z) : is_u64 a -> wrap_u64 a = a.
Proof. apply Z.mod_small. Qed.

Lemma lxor_range (a b : Z) : is_u64 a -> is_u64 b -> is_u64 (Z.lxor a b).
Proof.
  intros Ha Hb. rewrite <- (wrap_u64_small a), <- (wrap_u64_small b) by assumption.
  rewrite <- wrap_u64_lxor. apply wrap_u64_range.
Qed.

Lemma shiftr_range (a n : Z) : 0 <= n -> is_u64 a -> is_u64 (Z.shiftr a n).
Proof.
  intros Hn [Ha Hb]. rewrite Z.shiftr_div_pow2 by lia.
  assert (0 < 2 ^ n) by (apply Z.pow_pos_nonneg; lia).
  split; [apply Z.div_pos; lia|].
  apply Z.le_lt_trans with a; [|lia].
  apply Z.div_le_upper_bound; nia.
Qed.

Lemma xorshift128_next (s : State) : xorshift128 s = (w (next s), next s).
Proof. reflexivity. Qed.

Lemma next_valid (s : State) : valid_state s -> valid_state (next s).
Proof.
  intros (Hx & Hy & Hz & Hw). unfold next, xorshift128, valid_state. cbn.
  repeat split; try apply Hy; try apply Hz; try apply Hw.
  all: repeat first [apply lxor_range | apply shiftr_range | apply wrap_u64_range
                    | assumption | lia].
Qed.

Lemma iter_next_valid (n : nat) (s : State) :
  valid_state s -> valid_state (Nat.iter n next s).
Proof. intros Hs. induction n; cbn; [assumption|now apply next_valid]. Qed.

Lemma next_sxor (a b : State) : next (sxor a b) = sxor (next a) (next b).
Proof.
  unfold next, xorshift128, sxor. cbn. f_equal.
  repeat first [rewrite Z.shiftl_lxor | rewrite Z.shiftr_lxor | rewrite wrap_u64_lxor].
  bitwise.
Qed.

Lemma sxor_swap (a b c d : State) :
  sxor (sxor a b) (sxor c d) = sxor (sxor a c) (sxor b d).
Proof. unfold sxor. cbn. f_equal; apply lxor_swap. Qed.

Lemma sxor_diag (a : State) : sxor a a = initial_state.
Proof. unfold sxor, initial_state. now rewrite !Z.lxor_nilpotent. Qed.

Lemma poly_apply_sxor (p : positive) (a b : State) :
  poly_apply p (sxor a b) = sxor (poly_apply p a) (poly_apply p b).
Proof.
  revert a b. induction p as [p IH|p IH|]; intros a b; cbn [poly_apply].
  - rewrite next_sxor, IH. apply sxor_swap.
  - now rewrite next_sxor, IH.
  - reflexivity.
Qed.

(** *** The annihilating polynomial *)

Lemma state_eqb_eq (a b : State) : state_eqb a b = true -> a = b.
Proof.
  unfold state_eqb. rewrite !andb_true_iff, !Z.eqb_eq.
  destruct a, b; cbn. intros [[[-> ->] ->] ->]. reflexivity.
Qed.

Lemma annihilates_all_bits : forallb annihilates_bit (seq 0 64) = true.
Proof. vm_compute. reflexivity. Qed.

Lemma annihilates_bit_units (k : Z) :
  0 <= k < 64 -> annihilates_bit (Z.to_nat k) = true.
Proof.
  intros Hk. pose proof annihilates_all_bits as H.
  rewrite forallb_forall in H. apply H, in_seq. lia.
Qed.

Lemma poly_apply_unit (u : Z -> State) (k : Z) :
  0 <= k < 64 ->
  state_eqb (poly_apply annihilator (u (2 ^ Z.of_nat (Z.to_nat k)))) initial_state = true ->
  poly_apply annihilator (u (2 ^ k)) = initial_state.
Proof.
  intros Hk H. rewrite Z2Nat.id in H by lia. exact (state_eqb_eq _ _ H).
Qed.

Lemma annihilates_unit_x (k : Z) :
  0 <= k < 64 -> poly_apply annihilator (unit_x (2 ^ k)) = initial_state.
Proof.
  intros Hk. pose proof (annihilates_bit_units k Hk) as H.
  unfold annihilates_bit in H. rewrite !andb_true_iff in H.
  exact (poly_apply_unit unit_x k Hk (proj1 (proj1 (proj1 H)))).
Qed.

Lemma annihilates_unit_y (k : Z) :
  0 <= k < 64 -> poly_apply annihilator (unit_y (2 ^ k)) = initial_state.
Proof.
  intros Hk. pose proof (annihilates_bit_units k Hk) as H.
  unfold annihilates_bit in H. rewrite !andb_true_iff in H.
  exact (poly_apply_unit unit_y k Hk (proj2 (proj1 (proj1 H)))).
Qed.

Lemma annihilates_unit_z (k : Z) :
  0 <= k < 64 -> poly_apply annihilator (unit_z (2 ^ k)) = initial_state.
Proof.
  intros Hk. pose proof (annihilates_bit_units k Hk) as H.
  unfold annihilates_bit in H. rewrite !andb_true_iff in H.
  exact (poly_apply_unit unit_z k Hk (proj2 (proj1 H))).
Qed.

Lemma annihilates_unit_w (k : Z) :
  0 <= k < 64 -> poly_apply annihilator (unit_w (2 ^ k)) = initial_state.
Proof.
  intros Hk. pose proof (annihilates_bit_units k Hk) as H.
  unfold annihilates_bit in H. rewrite !andb_true_iff in H.
  exact (poly_apply_unit unit_w k Hk (proj2 H)).
Qed.

Lemma lxor_high_bit (v : Z) (n : Z) :
  0 <= n -> 2 ^ n <= v < 2 ^ (n + 1) -> v = Z.lxor (v - 2 ^ n) (2 ^ n).
Proof.
  intros Hn Hv. rewrite Z.pow_add_r in Hv by lia.
  rewrite Z.pow_1_r in Hv.
  assert (Hl : Z.land (v - 2 ^ n) (2 ^ n) = 0); [|rewrite <- (Z.add_nocarry_lxor _ _ Hl); ring].
  apply Z.bits_inj'. intros i Hi.
  rewrite Z.land_spec, Z.bits_0, Z.pow2_bits_eqb by lia.
  destruct (Z.eqb_spec n i) as [<-|]; [|apply andb_false_r].
  rewrite andb_true_r.
  destruct (Z.eq_dec (v - 2 ^ n) 0) as [->|]; [apply Z.bits_0|].
  apply Z.bits_above_log2; [lia|]. apply Z.log2_lt_pow2; lia.
Qed.

Section Additive.
Variable f : Z -> State.
Hypothesis f_lxor : forall a b, f (Z.lxor a b) = sxor (f a) (f b).
Hypothesis f_bits : forall k, 0 <= k < 64 -> f (2 ^ k) = initial_state.

Lemma additive_zero : f 0 = initial_state.
Proof. rewrite <- (Z.lxor_nilpotent 0), f_lxor. apply sxor_diag. Qed.

Lemma additive_vanishes_below (n : nat) :
  (n <= 64)%nat -> forall v, 0 <= v < 2 ^ Z.of_nat n -> f v = initial_state.
Proof.
  induction n as [|n IH]; intros Hn v Hv.
  - assert (v = 0) as -> by (cbn in Hv; lia). apply additive_zero.
  - destruct (Z_lt_ge_dec v (2 ^ Z.of_nat n)) as [Hlt|Hge].
    + apply IH; lia.
    + rewrite Nat2Z.inj_succ, <- Z.add_1_r in Hv.
      rewrite (lxor_high_bit v (Z.of_nat n)) by lia.
      rewrite f_lxor, f_bits, IH by (rewrite ?Z.pow_add_r in Hv; lia).
      apply sxor_diag.
Qed.

Lemma additive_vanishes (v : Z) : is_u64 v -> f v = initial_state.
Proof. intros Hv. apply (additive_vanishes_below 64); [lia|exact Hv]. Qed.
End Additive.

Lemma unit_additive (u : Z -> State) (p : positive) :
  (forall a b, u (Z.lxor a b) = sxor (u a) (u b)) ->
  (forall k, 0 <= k < 64 -> poly_apply p (u (2 ^ k)) = initial_state) ->
  forall v, is_u64 v -> poly_apply p (u v) = initial_state.
Proof.
  intros Hu Hk v Hv.
  apply (additive_vanishes (fun v => poly_apply p (u v))); [|exact Hk|exact Hv].
  intros a b. now rewrite Hu, poly_apply_sxor.
Qed.

Lemma annihilator_vanishes (s : State) :
  valid_state s -> poly_apply annihilator s = initial_state.
Proof.
  intros (Hx & Hy & Hz & Hw).
  assert (Hs : s = sxor (sxor (unit_x (x s)) (unit_y (y s)))
                        (sxor (unit_z (z s)) (unit_w (w s)))).
  { destruct s; unfold sxor; cbn.
    now rewrite !Z.lxor_0_r, !Z.lxor_0_l. }
  pose proof (fun u => unit_additive u annihilator) as Ha.
  rewrite Hs, !poly_apply_sxor.
  rewrite (Ha unit_x), (Ha unit_y), (Ha unit_z), (Ha unit_w).
  - apply sxor_diag.
  - intros a b. unfold sxor, unit_w. cbn. now rewrite ?Z.lxor_0_l.
  - exact annihilates_unit_w.
  - exact Hw.
  - intros a b. unfold sxor, unit_z. cbn. now rewrite ?Z.lxor_0_l.
  - exact annihilates_unit_z.
  - exact Hz.
  - intros a b. unfold sxor, unit_y. cbn. now rewrite ?Z.lxor_0_l.
  - exact annihilates_unit_y.
  - exact Hy.
  - intros a b. unfold sxor, unit_x. cbn. now rewrite ?Z.lxor_0_l.
  - exact annihilates_unit_x.
  - exact Hx.
Qed.

(** *** Every bit of the output is eventually 0 *)

Lemma iter_next_shift (n : nat) (s : State) :
  Nat.iter n next (next s) = Nat.iter (S n) next s.
Proof. symmetry. apply Nat.iter_succ_r. Qed.

Lemma poly_apply_all_ones (j : Z) (p : positive) (s : State) :
  (forall i, (i < Pos.size_nat p)%nat ->
             Z.testbit (w (Nat.iter i next s)) j = true) ->
  Z.testbit (w (poly_apply p s)) j = odd_ones p.
Proof.
  revert s. induction p as [p IH|p IH|]; intros s H;
    cbn [poly_apply odd_ones Pos.size_nat] in *.
  - cbn [sxor w]. rewrite Z.lxor_spec.
    change s with (Nat.iter 0 next s) at 1. rewrite (H 0%nat) by lia.
    rewrite IH; [reflexivity|].
    intros i Hi. rewrite iter_next_shift. apply H. lia.
  - apply IH. intros i Hi. rewrite iter_next_shift. apply H. lia.
  - apply (H 0%nat). lia.
Qed.

Lemma bounded_search (P : nat -> bool) (n : nat) :
  (forall i, (i < n)%nat -> P i = true) \/ (exists i, (i < n)%nat /\ P i = false).
Proof.
  induction n as [|n [IH|(i & Hi & Hf)]].
  - left. intros i Hi. lia.
  - destruct (P n) eqn:E.
    + left. intros i Hi. destruct (Nat.eq_dec i n) as [->|]; [assumption|apply IH; lia].
    + right. exists n. split; [lia|assumption].
  - right. exists i. split; [lia|assumption].
Qed.

Lemma annihilator_size : Pos.size_nat annihilator = 254%nat.
Proof. reflexivity. Qed.

Lemma annihilator_odd : odd_ones annihilator = true.
Proof. reflexivity. Qed.

Lemma output_bit_clear (j : Z) (s : State) :
  valid_state s ->
  exists i, (i < 254)%nat /\ Z.testbit (w (Nat.iter (S i) next s)) j = false.
Proof.
  intros Hs.
  destruct (bounded_search (fun i => Z.testbit (w (Nat.iter (S i) next s)) j) 254)
    as [Hall|Hex]; [exfalso|exact Hex].
  assert (H : Z.testbit (w (poly_apply annihilator (next s))) j = odd_ones annihilator).
  { apply poly_apply_all_ones. rewrite annihilator_size.
    intros i Hi. rewrite iter_next_shift. now apply Hall. }
  rewrite annihilator_vanishes, annihilator_odd in H by now apply next_valid.
  cbn [w initial_state] in H. rewrite Z.bits_0 in H. discriminate.
Qed.

(** *** The sampling loop *)

Lemma sample_succeeds (range npot : Z) (fuel : nat) :
  0 < npot ->
  forall (s : State) (i : nat),
    (i < fuel)%nat ->
    w (Nat.iter (S i) next s) mod npot < range ->
    exists v s', sample fuel range npot s = Some (v, s') /\ 0 <= v < range.
Proof.
  intros Hnpot. induction fuel as [|fuel IH]; intros s i Hi Hlt; [lia|].
  cbn [sample]. rewrite xorshift128_next.
  destruct (Z.geb_spec (w (next s) mod npot) range) as [Hge|Hlt'].
  - destruct i as [|i]; [change (Nat.iter 1 next s) with (next s) in Hlt; lia|].
    apply (IH (next s) i); [lia|]. now rewrite iter_next_shift.
  - eexists _, _. split; [reflexivity|].
    split; [apply Z.mod_pos_bound; lia|lia].
Qed.

Lemma mod_pow2_bit_clear (r k : Z) :
  0 < k -> Z.testbit r (k - 1) = false -> r mod 2 ^ k < 2 ^ (k - 1).
Proof.
  intros Hk Hb.
  replace k with (k - 1 + 1) at 1 by lia.
  rewrite Z.pow_add_r, Z.pow_1_r by lia.
  assert (Hp : 0 < 2 ^ (k - 1)) by (apply Z.pow_pos_nonneg; lia).
  rewrite Z.rem_mul_r by lia.
  pose proof (Z.testbit_spec' r (k - 1) ltac:(lia)) as Hs.
  rewrite Hb in Hs. cbn [Z.b2z] in Hs. rewrite <- Hs.
  pose proof (Z.mod_pos_bound r (2 ^ (k - 1)) Hp). lia.
Qed.

(** *** [random_integer] *)

Lemma range_no_wrap (minimum maximum : Z) :
  is_s32 minimum -> is_s32 maximum -> minimum <= maximum ->
  wrap_u64 (wrap_u64 (wrap_u64 maximum - wrap_u64 minimum) + 1)
  = maximum - minimum + 1.
Proof.
  unfold is_s32, wrap_u64. intros Hmin Hmax Hle.
  rewrite <- Zminus_mod, Z.add_mod_idemp_l by lia.
  apply Z.mod_small. lia.
Qed.

Lemma wrap_s32_u64 (a : Z) : wrap_s32 (wrap_u64 a) = wrap_s32 a.
Proof.
  unfold wrap_s32, wrap_u64. f_equal.
  rewrite (Z.mod_eq a (2 ^ 64)) by lia.
  replace (a - 2 ^ 64 * (a / 2 ^ 64) + 2 ^ 31)
    with (a + 2 ^ 31 + (- (2 ^ 32 * (a / 2 ^ 64))) * 2 ^ 32) by ring.
  apply Z_mod_plus_full.
Qed.

Lemma wrap_s32_small (a : Z) : is_s32 a -> wrap_s32 a = a.
Proof.
  unfold is_s32, wrap_s32. intros Ha. rewrite Z.mod_small; lia.
Qed.

Lemma result_no_wrap (minimum value : Z) :
  is_s32 (minimum + value) ->
  wrap_s32 (wrap_u64 (wrap_u64 minimum + value)) = minimum + value.
Proof.
  intros H. rewrite wrap_s32_u64, <- (wrap_s32_small _ H).
  unfold wrap_s32, wrap_u64. f_equal.
  rewrite (Z.mod_eq minimum (2 ^ 64)) by lia.
  replace (minimum - 2 ^ 64 * (minimum / 2 ^ 64) + value + 2 ^ 31)
    with (minimum + value + 2 ^ 31 + (- (2 ^ 32 * (minimum / 2 ^ 64))) * 2 ^ 32)
    by ring.
  apply Z_mod_plus_full.
Qed.

(** C2: for S32 bounds with [minimum <= maximum], [random_integer] returns
    (within 254 iterations of its sampling loop, from every generator state)
    a value between [minimum] and [maximum] inclusive; with
    [maximum < minimum] it returns 0 and leaves the generator untouched,
    even with no iteration allowed. *)
Theorem random_integer_in_range (fuel : nat) (minimum maximum : Z) (s : State) :
  is_s32 minimum -> is_s32 maximum -> valid_state s -> (254 <= fuel)%nat ->
  (minimum <= maximum ->
   exists v s', random_integer fuel minimum maximum s = Some (v, s') /\
                minimum <= v <= maximum) /\
  (maximum < minimum ->
   forall fuel', random_integer fuel' minimum maximum s = Some (0, s)).
Proof.
  intros Hmin Hmax Hs Hfuel. split.
  - intros Hle. unfold random_integer.
    destruct (Z.ltb_spec maximum minimum) as [?|_]; [lia|].
    rewrite range_no_wrap by assumption.
    set (range := maximum - minimum + 1).
    assert (Hrange : 0 < range <= 2 ^ 32) by (unfold is_s32 in *; lia).
    destruct range as [|p|p] eqn:Ep; [lia| |lia].
    rewrite find_next_power_of_two_pos by lia.
    pose proof (pos_size_bounds p) as [Hlo Hhi].
    set (k := Z.pos (Pos.size p)) in *.
    destruct (output_bit_clear (k - 1) s Hs) as (i & Hi & Hbit).
    destruct (sample_succeeds (Z.pos p) (2 ^ k) fuel) with (s := s) (i := i)
      as (v & s' & -> & Hv).
    + apply Z.pow_pos_nonneg; lia.
    + lia.
    + apply Z.lt_le_trans with (2 ^ (k - 1)); [|assumption].
      apply mod_pow2_bit_clear; [lia|assumption].
    + exists (minimum + v), s'.
      rewrite result_no_wrap by (unfold is_s32 in *; lia).
      split; [reflexivity|lia].
  - intros Hlt fuel'. unfold random_integer.
    destruct (Z.ltb_spec maximum minimum) as [_|?]; [reflexivity|lia].
Qed.

Lemma random_integer_in_range_witness :
  is_s32 (-3) /\ is_s32 3 /\ valid_state (mkState 2016 0 0 0) /\
  (254 <= 254)%nat /\ -3 <= 3 /\
  exists v s', random_integer 254 (-3) 3 (mkState 2016 0 0 0) = Some (v, s') /\
               -3 <= v <= 3.
Proof.
  assert (H1 : is_s32 (-3)) by (unfold is_s32; lia).
  assert (H2 : is_s32 3) by (unfold is_s32; lia).
  assert (H3 : valid_state (mkState 2016 0 0 0))
    by (unfold valid_state, is_u64; cbn; lia).
  assert (H4 : (254 <= 254)%nat) by lia.
  assert (H5 : -3 <= 3) by lia.
  repeat (split; [assumption|]).
  exact (proj1 (random_integer_in_range 254 (-3) 3 (mkState 2016 0 0 0)
                  H1 H2 H3 H4) H5).
Defined.

(** *** Determinism *)

Lemma sampling_functional (range npot : Z) (s : State) (v1 v2 : Z)
    (s1 s2 : State) :
  sampling range npot s v1 s1 -> sampling range npot s v2 s2 ->
  v1 = v2 /\ s1 = s2.
Proof.
  intros H1. revert v2 s2.
  induction H1 as [s Hlt|s v1 s1 Hge _ IH]; intros v2 s2 H2;
    inversion H2; subst; try lia; auto.
Qed.

Lemma sample_sampling (fuel : nat) (range npot : Z) (s s' : State) (v : Z) :
  sample fuel range npot s = Some (v, s') -> sampling range npot s v s'.
Proof.
  revert s. induction fuel as [|fuel IH]; intros s; [discriminate|].
  cbn [sample]. destruct (xorshift128 s) as [r s1] eqn:E.
  destruct (Z.geb_spec (r mod npot) range) as [Hge|Hlt].
  - intros H. apply sampling_again; rewrite E; cbn [fst snd]; [lia|now apply IH].
  - intros [= <- <-]. pose proof (sampling_done range npot s) as H.
    rewrite E in H. apply H. exact Hlt.
Qed.

Lemma sample_valid (fuel : nat) (range npot : Z) (s s' : State) (v : Z) :
  valid_state s -> sample fuel range npot s = Some (v, s') -> valid_state s'.
Proof.
  revert s. induction fuel as [|fuel IH]; intros s Hs; [discriminate|].
  cbn [sample]. rewrite xorshift128_next.
  destruct (w (next s) mod npot >=? range).
  - apply IH. now apply next_valid.
  - intros [= _ <-]. now apply next_valid.
Qed.

(** From every valid state the sampling loop of [random_integer] ends
    within 254 iterations. *)
Lemma sample_total (fuel : nat) (minimum maximum : Z) (s : State) :
  is_s32 minimum -> is_s32 maximum -> minimum <= maximum ->
  valid_state s -> (254 <= fuel)%nat ->
  exists v s',
    sample fuel (range_of minimum maximum)
           (find_next_power_of_two (range_of minimum maximum)) s = Some (v, s').
Proof.
  intros Hmin Hmax Hle Hs Hfuel. unfold range_of.
  rewrite range_no_wrap by assumption.
  set (range := maximum - minimum + 1).
  assert (Hrange : 0 < range <= 2 ^ 32) by (unfold is_s32 in *; lia).
  destruct range as [|p|p] eqn:Ep; [lia| |lia].
  rewrite find_next_power_of_two_pos by lia.
  pose proof (pos_size_bounds p) as [Hlo Hhi].
  set (k := Z.pos (Pos.size p)) in *.
  destruct (output_bit_clear (k - 1) s Hs) as (i & Hi & Hbit).
  destruct (sample_succeeds (Z.pos p) (2 ^ k) fuel) with (s := s) (i := i)
    as (v & s' & E & _).
  - apply Z.pow_pos_nonneg; lia.
  - lia.
  - apply Z.lt_le_trans with (2 ^ (k - 1)); [|assumption].
    apply mod_pow2_bit_clear; [lia|assumption].
  - now exists v, s'.
Qed.

Lemma run_call_total (fuel : nat) (c : Call) (s : State) :
  valid_state s -> valid_call c -> (254 <= fuel)%nat ->
  exists v s', run_call fuel c s = Some (v, s') /\ valid_state s'.
Proof.
  intros Hs Hc Hfuel. destruct c as [|minimum maximum]; cbn [run_call].
  - rewrite xorshift128_next. eexists _, _. split; [reflexivity|].
    now apply next_valid.
  - destruct Hc as [Hmin Hmax]. unfold random_integer.
    destruct (Z.ltb_spec maximum minimum) as [Hlt|Hle];
      [now exists 0, s|].
    destruct (sample_total fuel minimum maximum s) as (v & s' & E);
      try assumption.
    unfold range_of in E. rewrite E. eexists _, _. split; [reflexivity|].
    eapply sample_valid; eassumption.
Qed.

Lemma run_calls_total (fuel : nat) (cs : list Call) (s : State) :
  valid_state s -> Forall valid_call cs -> (254 <= fuel)%nat ->
  exists outs s', run_calls fuel cs s = Some (outs, s').
Proof.
  intros Hs Hcs Hfuel. revert s Hs.
  induction Hcs as [|c cs Hc _ IH]; intros s Hs; cbn [run_calls].
  - now exists [], s.
  - destruct (run_call_total fuel c s Hs Hc Hfuel) as (v & s1 & -> & Hs1).
    destruct (IH s1 Hs1) as (outs & s2 & ->). now exists (v :: outs), s2.
Qed.

(** What the bounded model computes is an execution. *)
Lemma run_call_step (fuel : nat) (c : Call) (p : Process) (v : Z) (s' : State)
    (t : Z) :
  run_call fuel c (generator p) = Some (v, s') -> time_now p <= t ->
  call_step c p v (mkProcess s' t).
Proof.
  intros H Ht. destruct c as [|minimum maximum]; cbn [run_call] in H.
  - injection H as <- <-. now apply step_xorshift128.
  - unfold random_integer in H.
    destruct (Z.ltb_spec maximum minimum) as [Hlt|Hle].
    + injection H as <- <-. now apply step_random_integer_sentinel.
    + destruct (sample fuel _ _ (generator p)) as [[value s1]|] eqn:E;
        [|discriminate].
      injection H as <- <-. apply step_random_integer; [assumption..|].
      eapply sample_sampling. exact E.
Qed.

Lemma run_calls_run (fuel : nat) (cs : list Call) (p : Process)
    (outs : list Z) (s' : State) :
  run_calls fuel cs (generator p) = Some (outs, s') ->
  calls_run cs p outs (mkProcess s' (time_now p)).
Proof.
  revert p outs. induction cs as [|c cs IH]; intros p outs; cbn [run_calls].
  - intros [= <- <-]. destruct p. apply calls_run_nil.
  - destruct (run_call fuel c (generator p)) as [[v s1]|] eqn:E1; [|discriminate].
    destruct (run_calls fuel cs s1) as [[vs s2]|] eqn:E2; [|discriminate].
    intros [= <- <-].
    apply calls_run_cons with (p' := mkProcess s1 (time_now p)).
    + apply (run_call_step fuel); [exact E1|lia].
    + apply (IH (mkProcess s1 (time_now p))). exact E2.
Qed.

(** The result of a call and the generator state after it depend on the
    generator state before it only. *)
Lemma call_step_agree (c : Call) (p1 p2 p1' p2' : Process) (v1 v2 : Z) :
  generator p1 = generator p2 ->
  call_step c p1 v1 p1' -> call_step c p2 v2 p2' ->
  v1 = v2 /\ generator p1' = generator p2'.
Proof.
  intros Hg H1 H2. inversion H1; subst; inversion H2; subst; cbn [generator];
    try lia.
  - now rewrite Hg.
  - auto.
  - match goal with
    | Ha : sampling _ _ (generator p1) _ _, Hb : sampling _ _ (generator p2) _ _
      |- _ => rewrite Hg in Ha;
              destruct (sampling_functional _ _ _ _ _ _ _ Ha Hb) as [-> ->]
    end.
    auto.
Qed.

Lemma calls_run_agree (cs : list Call) (p1 p2 p1' p2' : Process)
    (outs1 outs2 : list Z) :
  generator p1 = generator p2 ->
  calls_run cs p1 outs1 p1' -> calls_run cs p2 outs2 p2' ->
  outs1 = outs2 /\ generator p1' = generator p2'.
Proof.
  intros Hg H1. revert p2 p2' outs2 Hg.
  induction H1 as [p1|c cs p1 q1 p1' v1 vs1 Hstep1 _ IH];
    intros p2 p2' outs2 Hg H2; inversion H2; subst.
  - auto.
  - match goal with
    | Hs : call_step c p2 _ ?q2, Hr : calls_run cs ?q2 _ p2' |- _ =>
        destruct (call_step_agree _ _ _ _ _ _ _ Hg Hstep1 Hs) as [-> Hq];
        destruct (IH _ _ _ Hq Hr) as [-> ->]
    end.
    auto.
Qed.

(** [seed_random] is what makes two runs differ: it reads the time. *)
Remark seed_random_reads_the_time :
  generator example_process_1 = generator example_process_2 /\
  generator (seed_random_in example_process_1)
  <> generator (seed_random_in example_process_2).
Proof. split; [reflexivity|discriminate]. Qed.

(** C6: two runs of the program whose generators hold equal values of [x],
    [y], [z] and [w] (valid 64-bit values), whatever the time in each, and that
    perform the same sequence of [xorshift128] and [random_integer] calls
    (with [S32] arguments), both complete the sequence, and every execution
    of either one returns the same results and ends with the same generator
    state; the bounded model computes them with any budget of 254 or more
    iterations for each sampling loop. *)
Theorem generator_runs_agree (cs : list Call) (p1 p2 : Process) :
  x (generator p1) = x (generator p2) -> y (generator p1) = y (generator p2) ->
  z (generator p1) = z (generator p2) -> w (generator p1) = w (generator p2) ->
  valid_state (generator p1) -> Forall valid_call cs ->
  exists outs s',
    (exists p1', calls_run cs p1 outs p1') /\
    (exists p2', calls_run cs p2 outs p2') /\
    (forall outs1 p1', calls_run cs p1 outs1 p1' ->
       outs1 = outs /\ generator p1' = s') /\
    (forall outs2 p2', calls_run cs p2 outs2 p2' ->
       outs2 = outs /\ generator p2' = s') /\
    (forall fuel, (254 <= fuel)%nat ->
       run_calls fuel cs (generator p1) = Some (outs, s')).
Proof.
  intros Hx Hy Hz Hw Hs Hcs.
  assert (Hg : generator p1 = generator p2)
    by (destruct (generator p1), (generator p2); cbn in *; congruence).
  destruct (run_calls_total 254 cs (generator p1) Hs Hcs (le_n _))
    as (outs & s' & Hrun).
  pose proof (run_calls_run _ _ _ _ _ Hrun) as Hrun1.
  assert (Hrun2 : calls_run cs p2 outs (mkProcess s' (time_now p2)))
    by (apply (run_calls_run 254); rewrite <- Hg; exact Hrun).
  exists outs, s'.
  split; [eexists; exact Hrun1|]. split; [eexists; exact Hrun2|].
  split; [|split].
  - intros outs1 p1' H.
    destruct (calls_run_agree _ _ _ _ _ _ _ eq_refl H Hrun1) as [-> ->]. auto.
  - intros outs2 p2' H.
    destruct (calls_run_agree _ _ _ _ _ _ _ eq_refl H Hrun2) as [-> ->]. auto.
  - intros fuel Hfuel.
    destruct (run_calls_total fuel cs (generator p1) Hs Hcs Hfuel)
      as (outs' & s'' & Hrun').
    pose proof (run_calls_run _ _ _ _ _ Hrun') as H.
    destruct (calls_run_agree _ _ _ _ _ _ _ eq_refl H Hrun1) as [-> E].
    cbn [generator] in E. now rewrite Hrun', E.
Qed.

Lemma generator_runs_agree_witness :
  valid_state (generator example_process_1) /\
  Forall valid_call example_calls /\
  time_now example_process_1 <> time_now example_process_2 /\
  exists outs s',
    (exists p1', calls_run example_calls example_process_1 outs p1') /\
    (exists p2', calls_run example_calls example_process_2 outs p2') /\
    (forall outs1 p1', calls_run example_calls example_process_1 outs1 p1' ->
       outs1 = outs /\ generator p1' = s') /\
    (forall outs2 p2', calls_run example_calls example_process_2 outs2 p2' ->
       outs2 = outs /\ generator p2' = s') /\
    (forall fuel, (254 <= fuel)%nat ->
       run_calls fuel example_calls (generator example_process_1)
       = Some (outs, s')).
Proof.
  assert (H1 : valid_state (generator example_process_1))
    by (unfold valid_state, is_u64; cbn; lia).
  assert (H2 : Forall valid_call example_calls)
    by (repeat constructor; unfold is_s32; lia).
  split; [exact H1|]. split; [exact H2|]. split; [discriminate|].
  exact (generator_runs_agree example_calls example_process_1 example_process_2
           eq_refl eq_refl eq_refl eq_refl H1 H2).
Defined.

End RandomSpec.

(* ===================================================================== *)
(** ** Properties of the rigid occupancy matrix *)
(* ===================================================================== *)

Module RigidSpec.
Import Rigid.















(** A cell outside the box reads as 0, whatever covers it. *)
Lemma get_from_rigid_matrix_outside (game : Game) (x y : Z) :
  in_box (box game) x y = false -> get_from_rigid_matrix game x y = 0.
Proof. intros H. unfold get_from_rigid_matrix. now rewrite H. Qed.

(** *** Counting the platforms that cover a cell *)







(** *** The occupancy invariant *)








End RigidSpec.

(* ===================================================================== *)
(** ** Properties of the input and output functions *)
(* ===================================================================== *)

Module IOSpec.
Import SDL IO.

(** *** [read_next_command] *)

Lemma last_cons_default {A : Type} (d x : A) (l : list A) :
  default d (last (x :: l)) = default x (last l).
Proof. rewrite last_cons. now destruct (last l). Qed.

Lemma read_next_command_loop_spec (queue : list SDL_Event) (c : Command) :
  read_next_command_loop queue c =
  (default c (last (List.filter (fun c => negb (is_command_none c))
                                (map command_from_event queue))), []).
Proof.
  revert c. induction queue as [|event queue IH]; intros c; [reflexivity|].
  cbn [read_next_command_loop map List.filter]. rewrite IH.
  destruct (is_command_none (command_from_event event)); cbn [negb];
    [reflexivity|].
  now rewrite last_cons_default.
Qed.

(** C4: [read_next_command] consumes every pending event and returns the
    command of the last event that maps to a command other than
    [COMMAND_NONE], or [COMMAND_NONE] when no event does. *)
Theorem read_next_command_last_meaningful (queue : list SDL_Event) :
  read_next_command queue =
  (last_meaningful (map command_from_event queue), []).
Proof. apply read_next_command_loop_spec. Qed.

(** The characterisation of [last_meaningful] that the claim uses. *)
Lemma last_meaningful_app (cs1 cs2 : list Command) (c : Command) :
  is_command_none c = false ->
  Forall (fun c' => is_command_none c' = true) cs2 ->
  last_meaningful (cs1 ++ c :: cs2) = c.
Proof.
  intros Hc Hcs2. unfold last_meaningful.
  rewrite List.filter_app. cbn [List.filter]. rewrite Hc. cbn [negb].
  assert (List.filter (fun c => negb (is_command_none c)) cs2 = []) as ->.
  { induction Hcs2 as [|c' cs2 Hc' _ IH]; [reflexivity|].
    cbn. now rewrite Hc'. }
  now rewrite last_snoc.
Qed.

Lemma last_meaningful_none (cs : list Command) :
  Forall (fun c => is_command_none c = true) cs ->
  last_meaningful cs = COMMAND_NONE.
Proof.
  intros H. unfold last_meaningful.
  assert (List.filter (fun c => negb (is_command_none c)) cs = []) as ->;
    [|reflexivity].
  induction H as [|c cs Hc _ IH]; [reflexivity|]. cbn. now rewrite Hc.
Qed.

(** *** [print_absolute], [print_centered] and [cache_borders_texture] *)

(** C10: for every [x] and [y], negative ones included, [print_absolute]
    returns [CODE_OK] and leaves the world as it is when the string is
    [NULL] or empty. *)
Theorem print_absolute_empty (env : Env) (x y : Z) (string : option string)
    (color_pair : ColorPair) (wd : World) :
  string = None \/ string = Some EmptyString ->
  print_absolute env x y string color_pair wd = (CODE_OK, wd).
Proof. intros [-> | ->]; reflexivity. Qed.

Lemma print_absolute_negative (env : Env) (x y : Z) (text : string)
    (color_pair : ColorPair) (wd : World) :
  text <> EmptyString -> x < 0 \/ y < 0 ->
  print_absolute env x y (Some text) color_pair wd = (CODE_ERROR, wd).
Proof.
  intros Htext Hneg. unfold print_absolute.
  destruct text as [|c text]; [congruence|].
  assert ((x <? 0) || (y <? 0) = true) as ->; [|reflexivity].
  apply orb_true_iff. rewrite !Z.ltb_lt. exact Hneg.
Qed.

Lemma print_centered_negative (env : Env) (y : Z) (string : string)
    (color_pair : ColorPair) (wd : World) :
  y < 0 -> print_centered env y string color_pair wd = (CODE_ERROR, wd).
Proof.
  intros Hy. unfold print_centered.
  destruct (Z.ltb_spec y 0); [reflexivity|lia].
Qed.

Lemma invalid_border_limits_spec (borders : BoundingBox.t) :
  invalid_border_limits borders = true <->
  BoundingBox.min_x borders < 0 \/ BoundingBox.min_y borders < 0 \/
  BoundingBox.min_x borders > BoundingBox.max_x borders \/
  BoundingBox.min_y borders > BoundingBox.max_y borders.
Proof.
  unfold invalid_border_limits.
  rewrite !orb_true_iff, !Z.ltb_lt, !Z.gtb_gt. tauto.
Qed.

Lemma cache_borders_texture_invalid (env : Env) (borders : BoundingBox.t)
    (wd : World) :
  invalid_border_limits borders = true ->
  fst (cache_borders_texture env borders wd) = CODE_ERROR /\
  render_ops (snd (cache_borders_texture env borders wd)) = render_ops wd /\
  borders_texture (snd (cache_borders_texture env borders wd)) = borders_texture wd /\
  game (snd (cache_borders_texture env borders wd)) = game wd.
Proof.
  intros Hinv. unfold cache_borders_texture.
  unfold mbind, M_bind, get_borders_texture.
  destruct (borders_texture wd) as [t|] eqn:Ht; [easy|].
  rewrite Hinv. cbn. easy.
Qed.


(** C7, as stated, fails: with an empty string [print_absolute] returns
    [CODE_OK] although both coordinates are negative. *)
Lemma print_absolute_negative_not_error :
  fst (print_absolute example_env (-1) (-1) (Some EmptyString)
         example_color_pair example_world) <> CODE_ERROR.
Proof. discriminate. Qed.

(** C7 (amended): with numbers of columns and lines that are not zero,
    [print_absolute] with a negative coordinate and a string that is neither
    [NULL] nor empty, [print_centered] with a negative line, whatever its
    string, and [cache_borders_texture] with invalid border limits return
    [CODE_ERROR] and do not draw: the first two leave the world as it is, the
    third only logs a message. *)
Theorem drawing_rejects_invalid_geometry (env : Env) (color_pair : ColorPair)
    (wd : World) (x y line : Z) (text string : string)
    (borders : BoundingBox.t) :
  get_columns env <> 0 -> get_lines env <> 0 ->
  text <> EmptyString ->
  x < 0 \/ y < 0 ->
  line < 0 ->
  BoundingBox.min_x borders < 0 \/ BoundingBox.min_y borders < 0 \/
  BoundingBox.min_x borders > BoundingBox.max_x borders \/
  BoundingBox.min_y borders > BoundingBox.max_y borders ->
  print_absolute env x y (Some text) color_pair wd = (CODE_ERROR, wd) /\
  print_centered env line string color_pair wd = (CODE_ERROR, wd) /\
  fst (cache_borders_texture env borders wd) = CODE_ERROR /\
  render_ops (snd (cache_borders_texture env borders wd)) = render_ops wd /\
  borders_texture (snd (cache_borders_texture env borders wd)) = borders_texture wd /\
  game (snd (cache_borders_texture env borders wd)) = game wd.
Proof.
  intros _ _ Htext Hneg Hline Hborders.
  split; [now apply print_absolute_negative|].
  split; [now apply print_centered_negative|].
  apply cache_borders_texture_invalid.
  now apply invalid_border_limits_spec.
Qed.

Lemma drawing_rejects_invalid_geometry_witness :
  get_columns example_env <> 0 /\ get_lines example_env <> 0 /\
  print_absolute example_env 3 (-2) (Some "Score"%string) example_color_pair
    example_world = (CODE_ERROR, example_world) /\
  print_centered example_env (-1) EmptyString example_color_pair
    example_world = (CODE_ERROR, example_world) /\
  fst (cache_borders_texture example_env (BoundingBox.mk 5 0 2 9) example_world)
    = CODE_ERROR /\
  render_ops (snd (cache_borders_texture example_env (BoundingBox.mk 5 0 2 9)
                     example_world)) = render_ops example_world /\
  borders_texture (snd (cache_borders_texture example_env (BoundingBox.mk 5 0 2 9)
                          example_world)) = borders_texture example_world /\
  game (snd (cache_borders_texture example_env (BoundingBox.mk 5 0 2 9)
               example_world)) = game example_world.
Proof.
  assert (Hc : get_columns example_env <> 0) by discriminate.
  assert (Hl : get_lines example_env <> 0) by discriminate.
  split; [exact Hc|]. split; [exact Hl|].
  apply (drawing_rejects_invalid_geometry example_env example_color_pair
           example_world 3 (-2) (-1) "Score" EmptyString (BoundingBox.mk 5 0 2 9)
           Hc Hl).
  - discriminate.
  - right. lia.
  - lia.
  - right. right. left. cbn. lia.
Defined.

Lemma print_absolute_empty_witness :
  print_absolute example_env (-4) (-7) (Some EmptyString) example_color_pair
    example_world = (CODE_OK, example_world).
Proof.
  apply (print_absolute_empty example_env (-4) (-7) (Some EmptyString)).
  right. reflexivity.
Defined.

(** *** [draw_game] *)

Lemma preserves_ret {A : Type} (v : A) : preserves (mret v : M A).
Proof. intros wd. split; reflexivity. Qed.

Lemma preserves_bind {A B : Type} (m : M A) (k : A -> M B) :
  preserves m -> (forall v, preserves (k v)) -> preserves (m ≫= k).
Proof.
  intros Hm Hk wd. unfold mbind, M_bind.
  specialize (Hm wd). destruct (m wd) as [v wd1]. cbn [snd] in Hm.
  specialize (Hk v wd1). destruct Hm as [<- <-]. exact Hk.
Qed.

Lemma preserves_render (op : RenderOp) : preserves (render op).
Proof. intros wd. split; reflexivity. Qed.

Lemma preserves_log_message (message : string) : preserves (log_message message).
Proof. intros wd. split; reflexivity. Qed.

Lemma preserves_set_borders_texture (t : option Texture) :
  preserves (set_borders_texture t).
Proof. intros wd. split; reflexivity. Qed.

Lemma preserves_get_borders_texture : preserves get_borders_texture.
Proof. intros wd. split; reflexivity. Qed.

Lemma preserves_update_profiler (name : string) (ms : Z) :
  preserves (update_profiler name ms).
Proof. intros wd. split; reflexivity. Qed.

Lemma preserves_get_render_draw_color : preserves get_render_draw_color.
Proof. intros wd. split; reflexivity. Qed.

Lemma preserves_set_render_draw_color (color : Color) :
  preserves (set_render_draw_color color).
Proof. intros wd. split; reflexivity. Qed.

Lemma preserves_render_fill_rect (rect : SDL_Rect) :
  preserves (render_fill_rect rect).
Proof. intros wd. split; reflexivity. Qed.

Create HintDb preserves.
#[local] Hint Resolve preserves_render preserves_log_message
  preserves_set_borders_texture preserves_get_borders_texture
  preserves_update_profiler preserves_get_render_draw_color
  preserves_set_render_draw_color preserves_render_fill_rect : preserves.

Ltac preserves_step :=
  first
    [ solve [auto with preserves]
    | apply preserves_ret
    | apply preserves_bind; [|intros ?]
    | match goal with
      | |- preserves (match ?v with _ => _ end) => destruct v
      end ].

Ltac preserves_auto := repeat preserves_step.

Lemma preserves_for_loop (fuel : nat) (x limit step : Z) (body : Z -> M unit) :
  (forall v, preserves (body v)) -> preserves (for_loop fuel x limit step body).
Proof.
  intros Hbody. revert x. induction fuel as [|fuel IH]; intros x;
    cbn [for_loop]; preserves_auto; auto.
Qed.

Lemma preserves_print_absolute (env : Env) (x y : Z) (string : option string)
    (color_pair : ColorPair) : preserves (print_absolute env x y string color_pair).
Proof. unfold print_absolute. preserves_auto. Qed.

Lemma preserves_cache_borders_texture (env : Env) (borders : BoundingBox.t) :
  preserves (cache_borders_texture env borders).
Proof.
  unfold cache_borders_texture. preserves_auto.
  all: apply preserves_for_loop; intros; preserves_auto.
Qed.

Lemma preserves_render_borders (env : Env) (borders : BoundingBox.t) :
  preserves (render_borders env borders).
Proof.
  unfold render_borders. pose proof preserves_cache_borders_texture.
  preserves_auto.
Qed.

Lemma preserves_print_centered_horizontally_from (env : Env) (y slice_size i : Z)
    (strings : list string) (color_pair : ColorPair) :
  preserves (print_centered_horizontally_from env y slice_size i strings color_pair).
Proof.
  revert i. induction strings as [|s strings IH]; intros i;
    cbn [print_centered_horizontally_from]; preserves_auto; auto.
Qed.

Lemma preserves_print_centered_horizontally (env : Env) (y : Z)
    (strings : list string) (color_pair : ColorPair) :
  preserves (print_centered_horizontally env y strings color_pair).
Proof.
  unfold print_centered_horizontally.
  pose proof preserves_print_centered_horizontally_from. preserves_auto.
Qed.

Lemma preserves_draw_rectangle (env : Env) (x y w h : Z) (color : Color) :
  preserves (draw_rectangle env x y w h color).
Proof. unfold draw_rectangle, draw_absolute_rectangle. preserves_auto. Qed.

Lemma preserves_draw_top_bar (env : Env) (player : Player.t) :
  preserves (draw_top_bar env player).
Proof.
  unfold draw_top_bar, write_top_bar_strings, draw_absolute_rectangle.
  pose proof preserves_print_centered_horizontally. preserves_auto.
Qed.

Lemma preserves_draw_bottom_bar (env : Env) (message : string) :
  preserves (draw_bottom_bar env message).
Proof.
  unfold draw_bottom_bar, write_bottom_bar_string, draw_absolute_rectangle.
  pose proof preserves_print_absolute. preserves_auto.
Qed.

Lemma preserves_draw_borders (env : Env) : preserves (draw_borders env).
Proof.
  unfold draw_borders. pose proof preserves_render_borders. preserves_auto.
Qed.

Lemma preserves_draw_platforms (env : Env) (platforms : list Platform.t)
    (box : BoundingBox.t) : preserves (draw_platforms env platforms box).
Proof.
  induction platforms as [|p platforms IH]; cbn [draw_platforms];
    pose proof preserves_draw_rectangle; preserves_auto.
Qed.

Lemma preserves_draw_perk (env : Env) (game : Game) :
  preserves (draw_perk env game).
Proof.
  unfold draw_perk. pose proof preserves_draw_rectangle. preserves_auto.
Qed.

Lemma preserves_draw_player (env : Env) (player : Player.t) :
  preserves (draw_player env player).
Proof.
  unfold draw_player. pose proof preserves_draw_rectangle. preserves_auto.
Qed.

Lemma profiled_ticks {A : Type} (env : Env) (name : string) (step : M A) :
  preserves step -> ticks 2 (profiled env name step).
Proof.
  intros Hstep wd. unfold profiled, mbind, M_bind, get_milliseconds.
  set (wd1 := mkWorld _ _ _ _ _ (S (clock_reads wd)) _).
  specialize (Hstep wd1). destruct (step wd1) as [v wd2].
  cbn [snd] in *. destruct Hstep as [Hg Hc].
  cbn. rewrite Hg, Hc. cbn. split; [reflexivity|lia].
Qed.

Lemma elapsed_since_seq {A : Type} (env : Env) (k n : nat) (start : Z)
    (m : M A) (c : M Z) :
  ticks k m -> elapsed_since env n start c ->
  elapsed_since env (k + n) start (m ;; c).
Proof.
  intros Hm Hc wd. unfold mbind, M_bind.
  specialize (Hm wd). destruct (m wd) as [v wd1]. cbn [snd] in Hm.
  destruct Hm as [Hg Hr]. specialize (Hc wd1). destruct Hc as [Hg' Hv].
  rewrite Hg', Hg, Hv, Hr. split; [reflexivity|]. do 2 f_equal. lia.
Qed.

Lemma draw_game_end (env : Env) (start : Z) :
  elapsed_since env 1 start
    (now ← get_milliseconds env;
     update_profiler "draw_game" (now - start);;
     now ← get_milliseconds env;
     mret (now - start)).
Proof.
  intros wd.
  unfold mbind, M_bind, mret, M_ret, get_milliseconds, update_profiler. cbn.
  split; [reflexivity|]. do 2 f_equal. lia.
Qed.

(** C8: with numbers of columns and lines that are not zero, [draw_game]
    leaves every field of the game as it was and returns the difference
    between the last and the first reading of the clock that it takes, its
    nineteenth and its first. *)
Theorem draw_game_side_effect_free (env : Env) (wd : World) :
  get_columns env <> 0 -> get_lines env <> 0 ->
  game (snd (draw_game env wd)) = game wd /\
  fst (draw_game env wd) =
    clock env (clock_reads wd + 18)%nat - clock env (clock_reads wd).
Proof.
  intros _ _.
  pose (wd1 := mkWorld (game wd) (render_ops wd) (log_messages wd)
                 (borders_texture wd) (profiler wd) (S (clock_reads wd))
                 (draw_color wd)).
  pose (start := clock env (clock_reads wd)).
  pose (rest :=
          profiled env "draw_game:clear" clear;;
          profiled env "draw_game:draw_top_bar"
            (draw_top_bar env (player (game wd)));;
          profiled env "draw_game:draw_bottom_bar"
            (draw_bottom_bar env (message (game wd)));;
          profiled env "draw_game:draw_borders" (draw_borders env);;
          profiled env "draw_game:draw_platforms"
            (draw_platforms env (platforms (game wd)) (box (game wd)));;
          profiled env "draw_game:draw_perk" (draw_perk env (game wd));;
          profiled env "draw_game:draw_player"
            (draw_player env (player (game wd)));;
          profiled env "draw_game:present" present;;
          now ← get_milliseconds env;
          update_profiler "draw_game" (now - start);;
          now ← get_milliseconds env;
          mret (now - start)).
  change (draw_game env wd) with (rest wd1).
  assert (H : elapsed_since env (2 + (2 + (2 + (2 + (2 + (2 + (2 + (2 + 1))))))))
                start rest).
  { repeat (apply elapsed_since_seq; [apply profiled_ticks|]).
    9: apply draw_game_end.
    - apply preserves_render.
    - apply preserves_draw_top_bar.
    - apply preserves_draw_bottom_bar.
    - apply preserves_draw_borders.
    - apply preserves_draw_platforms.
    - apply preserves_draw_perk.
    - apply preserves_draw_player.
    - apply preserves_render. }
  destruct (H wd1) as [Hg Hv]. split; [exact Hg|].
  rewrite Hv. unfold start. do 2 f_equal. cbn. lia.
Qed.

Lemma draw_game_side_effect_free_witness :
  get_columns example_env <> 0 /\ get_lines example_env <> 0 /\
  game (snd (draw_game example_env example_world)) = game example_world /\
  fst (draw_game example_env example_world) =
    clock example_env (clock_reads example_world + 18)%nat
    - clock example_env (clock_reads example_world).
Proof.
  assert (Hc : get_columns example_env <> 0) by discriminate.
  assert (Hl : get_lines example_env <> 0) by discriminate.
  split; [exact Hc|]. split; [exact Hl|].
  exact (draw_game_side_effect_free example_env example_world Hc Hl).
Defined.

(** *** [read_string] *)

Lemma strlen_spec (buffer : list ascii) (n : nat) :
  strlen buffer = Some n <->
  (exists c, buffer !! n = Some c /\ is_NUL c = true) /\
  (forall i c, (i < n)%nat -> buffer !! i = Some c -> is_NUL c = false).
Proof.
  revert n. induction buffer as [|c0 buffer IH]; intros n; cbn [strlen].
  - split; [discriminate|]. intros [(c & Hc & _) _]. discriminate.
  - destruct (is_NUL c0) eqn:E0.
    + split.
      * intros [= <-]. split; [exists c0; easy|]. intros i c Hi. lia.
      * intros [_ Hall]. destruct n as [|n]; [reflexivity|].
        specialize (Hall O c0 ltac:(lia) eq_refl). congruence.
    + split.
      * intros H. destruct n as [|n]; [destruct (strlen buffer); discriminate|].
        assert (Hn : strlen buffer = Some n)
          by (destruct (strlen buffer); cbn in H; congruence).
        apply IH in Hn as [Hnul Hall].
        split; [exact Hnul|]. intros [|i] c Hi Hc.
        -- injection Hc as <-. exact E0.
        -- apply (Hall i c); [lia|exact Hc].
      * intros [(c & Hc & Hnul) Hall]. destruct n as [|n].
        -- injection Hc as <-. congruence.
        -- assert (strlen buffer = Some n) as ->; [|reflexivity].
           apply IH. split; [exists c; easy|].
           intros i c' Hi Hc'. apply (Hall (S i) c'); [lia|exact Hc'].
Qed.

Lemma isalnum_not_NUL (c : ascii) : isalnum c = true -> is_NUL c = false.
Proof.
  unfold isalnum, is_NUL. intros H. apply N.eqb_neq. intros Hz.
  rewrite Hz in H. discriminate.
Qed.

Lemma buffer_ok_backspace (size : nat) (st : ReadState) :
  buffer_ok size st -> (0 < written st)%nat ->
  buffer_ok size
    (mkReadState (<[(written st - 1)%nat := NUL]> (destination st))
                 (written st - 1) true (stores st ++ [(written st - 1)%nat])).
Proof.
  intros [Hlen Hw Hsize Hst] Hpos. split; cbn.
  - apply strlen_spec. apply strlen_spec in Hlen as [_ Hall]. split.
    + exists NUL. split; [|reflexivity].
      apply list_lookup_insert_eq. lia.
    + intros i c Hi Hc. rewrite list_lookup_insert_ne in Hc by lia.
      apply (Hall i c); [lia|exact Hc].
  - lia.
  - now rewrite length_insert.
  - apply Forall_app. split; [assumption|]. constructor; [lia|constructor].
Qed.

Lemma buffer_ok_append (size : nat) (st : ReadState) (c : ascii) :
  buffer_ok size st -> isalnum c = true -> (written st + 1 < size)%nat ->
  buffer_ok size
    (mkReadState
       (<[(written st + 1)%nat := NUL]> (<[written st := c]> (destination st)))
       (written st + 1) true
       ((stores st ++ [written st]) ++ [(written st + 1)%nat])).
Proof.
  intros [Hlen Hw Hsize Hst] Hc Hroom. split; cbn.
  - apply strlen_spec. apply strlen_spec in Hlen as [_ Hall]. split.
    + exists NUL. split; [|reflexivity].
      apply list_lookup_insert_eq. rewrite length_insert. lia.
    + intros i c' Hi Hc'. rewrite list_lookup_insert_ne in Hc' by lia.
      destruct (Nat.eq_dec i (written st)) as [->|Hne].
      * rewrite list_lookup_insert_eq in Hc' by lia.
        injection Hc' as <-. now apply isalnum_not_NUL.
      * rewrite list_lookup_insert_ne in Hc' by lia.
        apply (Hall i c'); [lia|exact Hc'].
  - lia.
  - now rewrite !length_insert.
  - repeat (apply Forall_app; split); try assumption;
      (constructor; [lia|constructor]).
Qed.

Lemma read_string_event_ok (size : nat) (event : SDL_Event) (st st' : ReadState) :
  buffer_ok size st -> read_string_event size event st = inr st' ->
  buffer_ok size st'.
Proof.
  intros Hok. unfold read_string_event.
  destruct (type event =? SDL_QUIT); [discriminate|].
  destruct (type event =? SDL_KEYDOWN).
  - destruct ((key_keysym_sym event =? SDLK_BACKSPACE) && (0 <? written st)%nat) eqn:E.
    + intros [= <-]. apply andb_true_iff in E as [_ Hpos%Nat.ltb_lt].
      now apply buffer_ok_backspace.
    + destruct (key_keysym_sym event =? SDLK_RETURN); [discriminate|].
      now intros [= <-].
  - destruct (type event =? SDL_TEXTINPUT); [|now intros [= <-]].
    destruct (is_valid_input_character (text_text_0 event)
              && (written st + 1 <? size)%nat) eqn:E; [|now intros [= <-]].
    intros [= <-]. apply andb_true_iff in E as [Hc Hroom%Nat.ltb_lt].
    now apply buffer_ok_append.
Qed.

(** What changes [written]: a valid character with room for it, or a
    backspace on a buffer that is not empty. *)
Lemma read_string_event_written (size : nat) (event : SDL_Event)
    (st st' : ReadState) :
  read_string_event size event st = inr st' ->
  (written st' = written st /\ destination st' = destination st) \/
  (written st' = (written st + 1)%nat /\ type event = SDL_TEXTINPUT /\
   isalnum (text_text_0 event) = true /\ (written st + 1 < size)%nat) \/
  (written st' = (written st - 1)%nat /\ type event = SDL_KEYDOWN /\
   key_keysym_sym event = SDLK_BACKSPACE /\ (0 < written st)%nat).
Proof.
  unfold read_string_event.
  destruct (type event =? SDL_QUIT); [discriminate|].
  destruct (Z.eqb_spec (type event) SDL_KEYDOWN) as [Hk|_].
  - destruct ((key_keysym_sym event =? SDLK_BACKSPACE) && (0 <? written st)%nat) eqn:E.
    + intros [= <-]. apply andb_true_iff in E as [Hb%Z.eqb_eq Hpos%Nat.ltb_lt].
      right. right. easy.
    + destruct (key_keysym_sym event =? SDLK_RETURN); [discriminate|].
      intros [= <-]. left. easy.
  - destruct (Z.eqb_spec (type event) SDL_TEXTINPUT) as [Ht|_];
      [|intros [= <-]; left; easy].
    destruct (is_valid_input_character (text_text_0 event)
              && (written st + 1 <? size)%nat) eqn:E;
      [|intros [= <-]; left; easy].
    intros [= <-]. apply andb_true_iff in E as [Hc Hroom%Nat.ltb_lt].
    right. left. easy.
Qed.

Lemma read_string_loop_ok (size : nat) (events : list (option SDL_Event))
    (st : ReadState) :
  buffer_ok size st -> buffer_ok size (snd (read_string_loop size events st)).
Proof.
  revert st. induction events as [|[event|] events IH]; intros st Hok;
    cbn [read_string_loop].
  - destruct Hok. split; assumption.
  - destruct (read_string_event size event _) as [code|st'] eqn:E.
    + destruct Hok. split; assumption.
    + apply IH. eapply read_string_event_ok; [|exact E].
      destruct Hok. split; assumption.
  - apply IH. destruct Hok. split; assumption.
Qed.

(** C9: when [destination] holds a NUL-terminated string shorter than
    [size] (in a buffer of at least [size] characters), then after any
    sequence of events, so throughout [read_string], the buffer holds a
    NUL-terminated string of [written] characters with [written < size], and
    every store made so far was at an offset below [size].  A single event
    changes [written] only by appending an alphanumeric character when
    [written + 1 < size] or by a backspace when [written > 0]. *)
Theorem read_string_buffer_safe (size : nat) (buffer : list ascii)
    (events : list (option SDL_Event)) (n : nat) :
  strlen buffer = Some n -> (n < size)%nat -> (size <= length buffer)%nat ->
  (exists code st,
     read_string size buffer events = Some (code, st) /\
     strlen (destination st) = Some (written st) /\
     (written st < size)%nat /\
     Forall (fun i => (i < size)%nat) (stores st)) /\
  (forall event st st',
     read_string_event size event st = inr st' ->
     (written st' = written st /\ destination st' = destination st) \/
     (written st' = (written st + 1)%nat /\ type event = SDL_TEXTINPUT /\
      isalnum (text_text_0 event) = true /\ (written st + 1 < size)%nat) \/
     (written st' = (written st - 1)%nat /\ type event = SDL_KEYDOWN /\
      key_keysym_sym event = SDLK_BACKSPACE /\ (0 < written st)%nat)).
Proof.
  intros Hlen Hn Hsize. split; [|apply read_string_event_written].
  unfold read_string. rewrite Hlen.
  pose proof (read_string_loop_ok size events (mkReadState buffer n true []))
    as Hok.
  destruct (read_string_loop size events _) as [code st].
  exists code, st. split; [reflexivity|].
  destruct Hok as [H1 H2 H3 H4]; [split; cbn; auto|]. cbn in *. auto.
Qed.

Lemma read_string_buffer_safe_witness :
  strlen example_buffer = Some 2%nat /\ (2 < 6)%nat /\
  (6 <= length example_buffer)%nat /\
  exists code st,
    read_string 6 example_buffer example_events = Some (code, st) /\
    strlen (destination st) = Some (written st) /\
    (written st < 6)%nat /\
    Forall (fun i => (i < 6)%nat) (stores st).
Proof.
  assert (H1 : strlen example_buffer = Some 2%nat) by reflexivity.
  assert (H2 : (2 < 6)%nat) by lia.
  assert (H3 : (6 <= length example_buffer)%nat) by (cbn; lia).
  repeat (split; [assumption|]).
  exact (proj1 (read_string_buffer_safe 6 example_buffer example_events 2
                  H1 H2 H3)).
Defined.

End IOSpec.

(* ===================================================================== *)
(** ** More properties of the random source *)
(* ===================================================================== *)

Module RandomExtra.
Import Random RandomSpec RandomMore.

(** *** The size of the sampling window *)

(** X1: for a range between 1 and 2^63 - 1, the power of two that
    [random_integer] samples below is greater than the range and at most
    twice the range. *)
Theorem find_next_power_of_two_window (range : Z) :
  0 < range < 2 ^ 63 ->
  range < find_next_power_of_two range <= 2 * range.
Proof.
  intros Hr. destruct range as [|p|p]; [lia| |lia].
  rewrite find_next_power_of_two_pos by lia.
  pose proof (pos_size_bounds p) as [Hlo Hhi].
  split; [exact Hhi|].
  replace (Z.pos (Pos.size p)) with (Z.succ (Z.pos (Pos.size p) - 1)) by lia.
  rewrite Z.pow_succ_r by lia. lia.
Qed.

Lemma find_next_power_of_two_window_witness :
  0 < 6 < 2 ^ 63 /\ 6 < find_next_power_of_two 6 <= 2 * 6.
Proof.
  assert (H : 0 < 6 < 2 ^ 63) by lia.
  split; [exact H|]. exact (find_next_power_of_two_window 6 H).
Defined.

(** *** The state update is invertible *)

Lemma poly_apply_xI (q : positive) (s : State) :
  poly_apply (xI q) s = sxor s (poly_apply q (next s)).
Proof. reflexivity. Qed.

Lemma annihilator_odd_digit : annihilator = xI (Pos.div2 annihilator).
Proof. reflexivity. Qed.

Lemma sxor_cancel (a b : State) : sxor a b = initial_state -> a = b.
Proof.
  destruct a, b. unfold sxor, initial_state. cbn.
  intros [= Hx Hy Hz Hw].
  apply Z.lxor_eq in Hx, Hy, Hz, Hw. congruence.
Qed.

(** A valid state is a function of its successor. *)
Lemma state_of_next (s : State) :
  valid_state s -> s = poly_apply (Pos.div2 annihilator) (next s).
Proof.
  intros Hs. apply sxor_cancel.
  rewrite <- poly_apply_xI, <- annihilator_odd_digit.
  now apply annihilator_vanishes.
Qed.

(** X2: [xorshift128] never maps two different states to the same state:
    the state before a call is determined by the state after it. *)
Theorem xorshift128_injective (s1 s2 : State) :
  valid_state s1 -> valid_state s2 ->
  snd (xorshift128 s1) = snd (xorshift128 s2) -> s1 = s2.
Proof.
  intros H1 H2 Heq. fold (next s1) (next s2) in Heq.
  rewrite (state_of_next s1 H1), (state_of_next s2 H2). now rewrite Heq.
Qed.

(** *** A state that is not all zero stays so *)

Lemma all_zero_initial (s : State) : all_zero s <-> s = initial_state.
Proof.
  destruct s. unfold all_zero, initial_state. cbn. split.
  - intros (-> & -> & -> & ->). reflexivity.
  - intros [= -> -> -> ->]. easy.
Qed.

Lemma next_initial : next initial_state = initial_state.
Proof. reflexivity. Qed.

Lemma poly_apply_initial (p : positive) :
  poly_apply p initial_state = initial_state.
Proof.
  induction p as [p IH|p IH|]; cbn [poly_apply]; rewrite ?next_initial, ?IH;
    reflexivity.
Qed.

Lemma next_not_all_zero (s : State) :
  valid_state s -> ~ all_zero s -> ~ all_zero (next s).
Proof.
  intros Hs Hnz Hz. apply Hnz. apply all_zero_initial.
  apply all_zero_initial in Hz.
  rewrite (state_of_next s Hs), Hz. apply poly_apply_initial.
Qed.

Lemma next_live (s : State) : live_state s -> live_state (next s).
Proof. intros [Hv Hnz]. split; [now apply next_valid|now apply next_not_all_zero]. Qed.

Lemma sample_live (fuel : nat) (range npot : Z) (s s' : State) (v : Z) :
  live_state s -> sample fuel range npot s = Some (v, s') -> live_state s'.
Proof.
  revert s. induction fuel as [|fuel IH]; intros s Hs; [discriminate|].
  cbn [sample]. rewrite xorshift128_next.
  destruct (w (next s) mod npot >=? range).
  - apply IH. now apply next_live.
  - intros [= _ <-]. now apply next_live.
Qed.

Lemma random_integer_live (fuel : nat) (minimum maximum : Z) (s s' : State)
    (v : Z) :
  live_state s -> random_integer fuel minimum maximum s = Some (v, s') ->
  live_state s'.
Proof.
  intros Hs. unfold random_integer.
  destruct (maximum <? minimum); [now intros [= _ <-]|].
  destruct (sample fuel _ _ s) as [[v' s'']|] eqn:E; [|discriminate].
  intros [= _ <-]. eapply sample_live; eassumption.
Qed.

(** X3: once the state is not all zero (and holds 64-bit values), no
    sequence of [xorshift128] and [random_integer] calls makes it all zero
    again. *)
Theorem run_calls_never_all_zero (fuel : nat) (cs : list Call) (s s' : State)
    (outs : list Z) :
  valid_state s -> ~ all_zero s ->
  run_calls fuel cs s = Some (outs, s') ->
  valid_state s' /\ ~ all_zero s'.
Proof.
  intros Hv Hnz. assert (Hs : live_state s) by (split; assumption).
  clear Hv Hnz. revert s outs Hs.
  induction cs as [|c cs IH]; intros s outs Hs; cbn [run_calls].
  - now intros [= _ <-].
  - destruct (run_call fuel c s) as [[v s1]|] eqn:E1; [|discriminate].
    destruct (run_calls fuel cs s1) as [[vs s2]|] eqn:E2; [|discriminate].
    intros [= _ <-]. apply (IH s1 vs); [|exact E2].
    destruct c; cbn [run_call] in E1.
    + rewrite xorshift128_next in E1. injection E1 as _ <-. now apply next_live.
    + eapply random_integer_live; eassumption.
Qed.

Lemma run_calls_never_all_zero_witness :
  valid_state (mkState 2016 0 0 0) /\ ~ all_zero (mkState 2016 0 0 0) /\
  run_calls 1 [CallXorshift128; CallRandomInteger 1 6] (mkState 2016 0 0 0)
    = Some ([4143335; 1], mkState 0 0 4143335 4143328) /\
  valid_state (mkState 0 0 4143335 4143328) /\
  ~ all_zero (mkState 0 0 4143335 4143328).
Proof.
  assert (H1 : valid_state (mkState 2016 0 0 0))
    by (unfold valid_state, is_u64; cbn; lia).
  assert (H2 : ~ all_zero (mkState 2016 0 0 0))
    by (intros (Hx & _); discriminate Hx).
  assert (H3 : run_calls 1 [CallXorshift128; CallRandomInteger 1 6]
                 (mkState 2016 0 0 0)
               = Some ([4143335; 1], mkState 0 0 4143335 4143328))
    by reflexivity.
  repeat (split; [assumption|]).
  exact (run_calls_never_all_zero 1 _ _ _ _ H1 H2 H3).
Defined.

(** *** The all-zero state *)

(** X4: in the all-zero state the generator is stuck: [xorshift128] returns
    0 and, for every pair of S32 bounds with [minimum <= maximum],
    [random_integer] returns [minimum] at its first sample; the state stays
    all zero. *)
Theorem all_zero_state_is_stuck (fuel : nat) (minimum maximum : Z) (s : State) :
  all_zero s -> is_s32 minimum -> is_s32 maximum -> minimum <= maximum ->
  xorshift128 s = (0, s) /\
  random_integer (S fuel) minimum maximum s = Some (minimum, s).
Proof.
  intros Hz%all_zero_initial Hmin Hmax Hle. subst s.
  split; [reflexivity|]. unfold random_integer.
  destruct (Z.ltb_spec maximum minimum) as [?|_]; [lia|].
  rewrite range_no_wrap by assumption.
  cbn [sample]. rewrite xorshift128_next, next_initial.
  cbn [w initial_state]. rewrite Zmod_0_l.
  destruct (Z.geb_spec 0 (maximum - minimum + 1)) as [?|_]; [lia|].
  rewrite result_no_wrap by (rewrite Z.add_0_r; assumption).
  now rewrite Z.add_0_r.
Qed.

Lemma all_zero_state_is_stuck_witness :
  all_zero initial_state /\ is_s32 (-3) /\ is_s32 3 /\ -3 <= 3 /\
  xorshift128 initial_state = (0, initial_state) /\
  random_integer 1 (-3) 3 initial_state = Some (-3, initial_state).
Proof.
  assert (H1 : all_zero initial_state) by (repeat split).
  assert (H2 : is_s32 (-3)) by (unfold is_s32; lia).
  assert (H3 : is_s32 3) by (unfold is_s32; lia).
  assert (H4 : -3 <= 3) by lia.
  repeat (split; [assumption|]).
  exact (all_zero_state_is_stuck 0 (-3) 3 initial_state H1 H2 H3 H4).
Defined.

(** *** [random_word] *)



(** Without a line, or without the file, the word is empty; without a line
    the generator is not used. *)
Lemma random_word_nothing_to_read (fuel : nat) (line_count : Z)
    (file : option (list ascii)) (s : State) :
  (line_count <= 0 -> random_word fuel line_count file s = Some ([], s)) /\
  (file = None -> forall word s',
     random_word fuel line_count file s = Some (word, s') -> word = []).
Proof.
  unfold random_word. split.
  - intros Hl. destruct (Z.gtb_spec line_count 0); [lia|reflexivity].
  - intros -> word s'. destruct (line_count >? 0); [|now intros [= <- _]].
    destruct (random_integer fuel 0 (line_count - 1) s) as [[chosen s1]|];
      [now intros [= <- _]|discriminate].
Qed.



Lemma xorshift128_injective_witness :
  valid_state (mkState 2016 0 0 0) /\ valid_state (mkState 2016 0 0 0) /\
  snd (xorshift128 (mkState 2016 0 0 0)) = snd (xorshift128 (mkState 2016 0 0 0)) /\
  mkState 2016 0 0 0 = mkState 2016 0 0 0.
Proof.
  assert (H : valid_state (mkState 2016 0 0 0))
    by (unfold valid_state, is_u64; cbn; lia).
  split; [exact H|]. split; [exact H|]. split; [reflexivity|].
  exact (xorshift128_injective _ _ H H eq_refl).
Defined.

End RandomExtra.

(* ===================================================================== *)
(** ** Properties of the text helpers *)
(* ===================================================================== *)

Module TextSpec.
Import IO IOSpec Text.

(** *** [remove_first_breaks] *)

Lemma remove_first_breaks_loop_length (string : list ascii) (preserve : bool) :
  length (remove_first_breaks_loop string preserve) = length string.
Proof.
  revert preserve. induction string as [|c string IH]; intros preserve;
    cbn [remove_first_breaks_loop]; [reflexivity|].
  destruct (is_NUL c); [reflexivity|].
  destruct (is_newline c); [destruct preserve|]; cbn; now rewrite IH.
Qed.

Lemma remove_first_breaks_loop_strlen (string : list ascii) (preserve : bool) :
  strlen (remove_first_breaks_loop string preserve) = strlen string.
Proof.
  revert preserve. induction string as [|c string IH]; intros preserve;
    cbn [remove_first_breaks_loop]; [reflexivity|].
  destruct (is_NUL c) eqn:E; [reflexivity|].
  destruct (is_newline c); [destruct preserve|]; cbn [strlen];
    rewrite ?E, ?IH; reflexivity.
Qed.

Lemma remove_first_breaks_loop_lookup (string : list ascii) (preserve : bool)
    (i : nat) (c' : ascii) :
  remove_first_breaks_loop string preserve !! i = Some c' ->
  exists c, string !! i = Some c /\
            (c' = c \/ (is_newline c = true /\ c' = space)).
Proof.
  revert preserve i. induction string as [|c string IH]; intros preserve i;
    cbn [remove_first_breaks_loop]; [discriminate|].
  destruct (is_NUL c); [intros H; exists c'; auto|].
  destruct (is_newline c) eqn:En; [destruct preserve|];
    (destruct i as [|i]; cbn;
     [intros [= <-]; exists c; auto | apply IH]).
Qed.

(** X6: [remove_first_breaks] keeps the length of the string and of its
    buffer, and the only change it makes to a character is to turn a line
    break into a space. *)
Theorem remove_first_breaks_only_breaks (string : list ascii) :
  length (remove_first_breaks string) = length string /\
  strlen (remove_first_breaks string) = strlen string /\
  forall i c', remove_first_breaks string !! i = Some c' ->
    exists c, string !! i = Some c /\
              (c' = c \/ (is_newline c = true /\ c' = space)).
Proof.
  split; [apply remove_first_breaks_loop_length|].
  split; [apply remove_first_breaks_loop_strlen|].
  intros i c'. apply remove_first_breaks_loop_lookup.
Qed.

Lemma remove_first_breaks_loop_single (string : list ascii) (preserve : bool) :
  single_breaks string preserve = true ->
  count_lines (remove_first_breaks_loop string preserve) = 0%nat.
Proof.
  revert preserve. induction string as [|c string IH]; intros preserve;
    cbn [single_breaks remove_first_breaks_loop]; [reflexivity|].
  destruct (is_NUL c) eqn:E; [intros _; cbn; now rewrite E|].
  destruct (is_newline c) eqn:En.
  - destruct preserve; [discriminate|]. cbn [negb andb]. intros H.
    cbn [count_lines]. change (is_NUL space) with false.
    change (is_newline space) with false. now apply IH.
  - intros H. cbn [count_lines]. rewrite E, En. now apply IH.
Qed.

(** X7: when no two line breaks of the string are adjacent,
    [remove_first_breaks] leaves no line break in it. *)
Theorem remove_first_breaks_joins_lines (string : list ascii) :
  single_breaks string false = true ->
  count_lines (remove_first_breaks string) = 0%nat.
Proof. apply remove_first_breaks_loop_single. Qed.


Lemma remove_first_breaks_loop_breaks (string : list ascii) (preserve : bool)
    (n i : nat) (c c' : ascii) :
  strlen string = Some n -> (i < n)%nat ->
  string !! i = Some c ->
  remove_first_breaks_loop string preserve !! i = Some c' ->
  is_newline c' =
    is_newline c &&
    match i with
    | O => preserve
    | S j => match string !! j with Some b => is_newline b | None => false end
    end.
Proof.
  revert preserve n i. induction string as [|c0 string IH];
    intros preserve n i Hn Hi Hc Hc'; [discriminate|].
  cbn [strlen] in Hn. cbn [remove_first_breaks_loop] in Hc'.
  destruct (is_NUL c0) eqn:E0; [injection Hn as <-; lia|].
  destruct (strlen string) as [m|] eqn:Em; [|discriminate].
  injection Hn as <-.
  destruct i as [|i].
  - injection Hc as ->.
    destruct (is_newline c) eqn:En; [destruct preserve|];
      injection Hc' as <-; rewrite ?En; reflexivity.
  - cbn in Hc.
    assert (Hrec : forall p, remove_first_breaks_loop string p !! i = Some c' ->
              is_newline c' = is_newline c &&
                match i with
                | O => p
                | S j => match string !! j with
                         | Some b => is_newline b
                         | None => false
                         end
                end)
      by (intros p; apply (IH p m i eq_refl ltac:(lia) Hc)).
    destruct (is_newline c0) eqn:En0; [destruct preserve|]; cbn in Hc';
      rewrite (Hrec _ Hc'); destruct i; cbn; rewrite ?En0; reflexivity.
Qed.

(** X8: after [remove_first_breaks] a character of the string is a line
    break exactly when it was one and the character before it was one too:
    the first line break of every sequence of line breaks is gone and the
    others are kept. *)
Theorem remove_first_breaks_keeps_later_breaks (string : list ascii)
    (n i : nat) (c c' : ascii) :
  strlen string = Some n -> (i < n)%nat ->
  string !! i = Some c ->
  remove_first_breaks string !! i = Some c' ->
  is_newline c' =
    is_newline c &&
    match i with
    | O => false
    | S j => match string !! j with Some b => is_newline b | None => false end
    end.
Proof. apply remove_first_breaks_loop_breaks. Qed.

(** *** [count_lines] and [copy_first_line] *)

Lemma c_string_app_NUL (acc rest : list ascii) :
  Forall (fun c => is_NUL c = false) acc ->
  c_string (acc ++ NUL :: rest) = acc.
Proof.
  induction 1 as [|c acc Hc _ IH]; [reflexivity|].
  cbn. now rewrite Hc, IH.
Qed.

Lemma count_lines_c_string (buffer : list ascii) :
  Forall (fun c => is_newline c = false) (c_string buffer) ->
  count_lines buffer = 0%nat.
Proof.
  induction buffer as [|c buffer IH]; cbn; [reflexivity|].
  destruct (is_NUL c); [reflexivity|].
  intros H. inversion H as [|? ? Hc Hrest]; subst. rewrite Hc. now apply IH.
Qed.

Lemma copy_first_line_loop_offset (source destination : list ascii) (offset : nat) :
  (offset <= snd (copy_first_line_loop source destination offset))%nat.
Proof.
  revert destination offset. induction source as [|c source IH];
    intros destination offset; cbn [copy_first_line_loop]; [cbn; lia|].
  destruct (is_NUL c); [cbn; lia|]. destruct (is_newline c); [cbn; lia|].
  specialize (IH (<[offset := c]> destination) (S offset)). lia.
Qed.

Lemma copy_first_line_loop_spec (source acc rest : list ascii) (m : nat) :
  Forall (fun c => is_NUL c = false) acc ->
  strlen source = Some m -> (m < length rest)%nat ->
  exists line rest',
    fst (copy_first_line_loop source (acc ++ rest) (length acc))
      = (acc ++ line) ++ NUL :: rest' /\
    Forall (fun c => is_NUL c = false) line /\
    Forall (fun c => is_newline c = false) line /\
    let offset := (snd (copy_first_line_loop source (acc ++ rest) (length acc))
                   - length acc)%nat in
    (offset = length line /\ c_string source = line) \/
    (exists c, is_newline c = true /\ offset = S (length line) /\
               c_string source = line ++ c :: c_string (drop offset source)).
Proof.
  revert acc rest m. induction source as [|c source IH];
    intros acc rest m Hacc Hm Hroom; [discriminate|].
  cbn [strlen] in Hm. cbn [copy_first_line_loop c_string].
  destruct rest as [|d rest]; [cbn in Hroom; lia|].
  assert (Hins : forall v, <[length acc := v]> (acc ++ d :: rest) = acc ++ v :: rest).
  { intros v. replace (length acc) with (length acc + 0)%nat by lia.
    now rewrite insert_app_r. }
  destruct (is_NUL c) eqn:E.
  - exists [], rest. rewrite Hins, app_nil_r. cbn [fst snd].
    split; [reflexivity|]. split; [constructor|]. split; [constructor|].
    left. split; [cbn; lia|reflexivity].
  - destruct (strlen source) as [m'|] eqn:Em; [|discriminate].
    injection Hm as <-. cbn in Hroom.
    destruct (is_newline c) eqn:En.
    + exists [], rest. rewrite Hins, app_nil_r. cbn [fst snd].
      split; [reflexivity|]. split; [constructor|]. split; [constructor|].
      right. exists c.
      replace (S (length acc) - length acc)%nat with 1%nat by lia.
      split; [assumption|]. split; reflexivity.
    + rewrite Hins.
      replace (acc ++ c :: rest) with ((acc ++ [c]) ++ rest)
        by now rewrite <- app_assoc.
      replace (S (length acc)) with (length (acc ++ [c]))
        by (rewrite length_app; cbn; lia).
      destruct (IH (acc ++ [c]) rest m') as (line & rest' & Hd & Hnul & Hnl & Hoff);
        [apply Forall_app; split; [assumption|now constructor]|reflexivity|lia|].
      pose proof (copy_first_line_loop_offset source ((acc ++ [c]) ++ rest)
                    (length (acc ++ [c]))) as Hge.
      set (r := copy_first_line_loop source ((acc ++ [c]) ++ rest)
                  (length (acc ++ [c]))) in *.
      exists (c :: line), rest'. rewrite Hd.
      split; [now rewrite <- !app_assoc|].
      split; [now constructor|]. split; [now constructor|].
      cbn zeta in *.
      assert (Hl : length (acc ++ [c]) = S (length acc))
        by (rewrite length_app; cbn; lia).
      rewrite Hl in Hoff, Hge. cbn [length].
      destruct Hoff as [[Ho Hs]|(c1 & Hc1 & Ho & Hs)].
      * left. split; [lia|now rewrite Hs].
      * right. exists c1. split; [assumption|]. split; [lia|].
        cbn [app]. f_equal.
        replace (snd r - length acc)%nat with (S (snd r - S (length acc)))%nat
          by lia.
        exact Hs.
Qed.

(** X9: [copy_first_line] splits a string at its first line break.  With a
    destination that has room for the string, the destination then holds a
    string without a line break, and the source string is that string,
    followed, when the returned pointer is not at its end, by a line break
    and the string at the returned pointer. *)
Theorem copy_first_line_splits (source destination : list ascii) (m : nat) :
  strlen source = Some m -> (m < length destination)%nat ->
  let destination' := fst (copy_first_line source destination) in
  let offset := snd (copy_first_line source destination) in
  count_lines destination' = 0%nat /\
  ((offset = length (c_string destination') /\
    c_string source = c_string destination') \/
   (exists c, is_newline c = true /\
              offset = S (length (c_string destination')) /\
              c_string source
              = c_string destination' ++ c :: c_string (drop offset source))).
Proof.
  intros Hm Hroom.
  destruct (copy_first_line_loop_spec source [] destination m)
    as (line & rest' & Hd & Hnul & Hnl & Hoff); [constructor|assumption..|].
  cbn [app length] in Hd, Hoff. cbn zeta in Hoff.
  rewrite Nat.sub_0_r in Hoff.
  unfold copy_first_line. cbn zeta. rewrite Hd.
  rewrite c_string_app_NUL by assumption.
  split; [|exact Hoff].
  apply count_lines_c_string. now rewrite c_string_app_NUL.
Qed.


Lemma remove_first_breaks_joins_lines_witness :
  single_breaks example_paragraph false = true /\
  count_lines (remove_first_breaks example_paragraph) = 0%nat.
Proof.
  assert (H : single_breaks example_paragraph false = true) by reflexivity.
  split; [exact H|]. exact (remove_first_breaks_joins_lines _ H).
Defined.

Lemma remove_first_breaks_keeps_later_breaks_witness :
  strlen example_text = Some 8%nat /\ (4 < 8)%nat /\
  example_text !! 4%nat = Some newline /\
  remove_first_breaks example_text !! 4%nat = Some newline /\
  is_newline newline =
    is_newline newline &&
    match example_text !! 3%nat with Some b => is_newline b | None => false end.
Proof.
  assert (H1 : strlen example_text = Some 8%nat) by reflexivity.
  assert (H2 : (4 < 8)%nat) by lia.
  assert (H3 : example_text !! 4%nat = Some newline) by reflexivity.
  assert (H4 : remove_first_breaks example_text !! 4%nat = Some newline)
    by reflexivity.
  repeat (split; [assumption|]).
  exact (remove_first_breaks_keeps_later_breaks example_text 8 4 newline newline
           H1 H2 H3 H4).
Defined.

Lemma copy_first_line_splits_witness :
  strlen example_text = Some 8%nat /\ (8 < length example_destination)%nat /\
  let destination' := fst (copy_first_line example_text example_destination) in
  let offset := snd (copy_first_line example_text example_destination) in
  count_lines destination' = 0%nat /\
  ((offset = length (c_string destination') /\
    c_string example_text = c_string destination') \/
   (exists c, is_newline c = true /\
              offset = S (length (c_string destination')) /\
              c_string example_text
              = c_string destination' ++ c :: c_string (drop offset example_text))).
Proof.
  assert (H1 : strlen example_text = Some 8%nat) by reflexivity.
  assert (H2 : (8 < length example_destination)%nat) by (cbn; lia).
  split; [exact H1|]. split; [exact H2|].
  exact (copy_first_line_splits example_text example_destination 8 H1 H2).
Defined.

End TextSpec.

(* ===================================================================== *)
(** ** More properties of the input and output functions, of the joystick
       and of the entry point *)
(* ===================================================================== *)

Module IOMoreSpec.
Import SDL IO IOSpec Text IOMore.

(** *** What a computation draws *)

Lemma draws_ret {A : Type} (P : RenderOp -> Prop) (v : A) :
  draws P (mret v : M A).
Proof. intros wd. exists []. split; [symmetry; apply app_nil_r|constructor]. Qed.

Lemma draws_bind {A B : Type} (P : RenderOp -> Prop) (m : M A) (k : A -> M B) :
  draws P m -> (forall v, draws P (k v)) -> draws P (m ≫= k).
Proof.
  intros Hm Hk wd. unfold mbind, M_bind.
  destruct (Hm wd) as (ops1 & H1 & HP1). destruct (m wd) as [v wd1].
  destruct (Hk v wd1) as (ops2 & H2 & HP2). cbn [snd] in *.
  exists (ops1 ++ ops2). rewrite H2, H1, app_assoc.
  split; [reflexivity|]. apply Forall_app. split; assumption.
Qed.

Lemma draws_render (P : RenderOp -> Prop) (op : RenderOp) :
  P op -> draws P (render op).
Proof. intros H wd. exists [op]. split; [reflexivity|]. now constructor. Qed.

Lemma draws_log_message (P : RenderOp -> Prop) (message : string) :
  draws P (log_message message).
Proof. intros wd. exists []. split; [symmetry; apply app_nil_r|constructor]. Qed.

Lemma draws_print_absolute (P : RenderOp -> Prop) (env : Env) (x y : Z)
    (text : string) (color_pair : ColorPair) :
  (forall fg bg sw sh,
     P (RenderCopy (Some (TextTexture text fg bg sw sh)) (mkRect x y sw sh))) ->
  draws P (print_absolute env x y (Some text) color_pair).
Proof.
  intros HP. unfold print_absolute.
  destruct text as [|c text]; [apply draws_ret|].
  destruct ((x <? 0) || (y <? 0)); [apply draws_ret|].
  destruct (TTF_RenderText_Shaded env _) as [[sw sh]|].
  - destruct (SDL_CreateTextureFromSurface env _).
    + apply draws_bind; [apply draws_render, HP|intros; apply draws_ret].
    + apply draws_bind; [apply draws_log_message|intros; apply draws_ret].
  - apply draws_bind; [apply draws_log_message|intros; apply draws_ret].
Qed.

(** *** [print_limited] *)

Lemma string_of_list_ascii_length (l : list ascii) :
  String.length (string_of_list_ascii l) = length l.
Proof. induction l as [|c l IH]; cbn; [reflexivity|now rewrite IH]. Qed.

Lemma c_string_drop (buffer : list ascii) (k : nat) :
  (k <= length (c_string buffer))%nat ->
  length (c_string (drop k buffer)) = (length (c_string buffer) - k)%nat.
Proof.
  revert k. induction buffer as [|c buffer IH]; intros k Hk.
  - now rewrite drop_nil.
  - destruct k as [|k]; [cbn [drop]; lia|].
    cbn [c_string] in *. destruct (is_NUL c); [cbn in Hk; lia|].
    cbn [length drop] in *. rewrite IH by lia. lia.
Qed.

Lemma draws_print_text_within (env : Env) (x0 : Z) (limit : nat) (x y : Z)
    (text : string) (color_pair : ColorPair) :
  x0 <= x -> x + Z.of_nat (String.length text) <= x0 + Z.of_nat limit ->
  draws (text_within env x0 limit) (print env x y (Some text) color_pair).
Proof.
  intros Hlo Hhi. unfold print. apply draws_print_absolute.
  intros fg bg sw sh. exists text, fg, bg, sw, sh, x. eexists. eauto.
Qed.

(** X10: with a limit of at least three characters, whatever [print_limited]
    draws is text placed in the [limit] columns that start at [x]: the whole
    string when it is shorter than the limit, else its tail after three
    columns that hold the ellipsis when the limit is at least six. *)
Theorem print_limited_within_limit (env : Env) (x y : Z) (string : list ascii)
    (limit : nat) :
  (3 <= limit)%nat ->
  draws (text_within env x limit) (print_limited env x y string limit).
Proof.
  intros Hlimit. unfold print_limited.
  destruct (Nat.ltb_spec limit 1); [lia|].
  destruct (Nat.ltb_spec (length (c_string string)) limit) as [Hshort|Hlong].
  - apply draws_bind; [|intros; apply draws_ret].
    apply draws_print_text_within; [lia|].
    unfold string_at. rewrite string_of_list_ascii_length, drop_0. lia.
  - apply draws_bind; [|intros _; apply draws_bind; [|intros; apply draws_ret]].
    + destruct (Nat.leb_spec MINIMUM_STRING_SIZE_FOR_ELLIPSIS limit) as [Hsix|_];
        [|apply draws_ret].
      apply draws_bind; [|intros; apply draws_ret].
      apply draws_print_text_within; [lia|].
      change MINIMUM_STRING_SIZE_FOR_ELLIPSIS with 6%nat in Hsix. cbn. lia.
    + apply draws_print_text_within; [change ELLIPSIS_LENGTH with 3%nat; lia|].
      unfold string_at. rewrite string_of_list_ascii_length.
      change ELLIPSIS_LENGTH with 3%nat. rewrite c_string_drop by lia. lia.
Qed.

Lemma print_limited_within_limit_witness :
  (3 <= 7)%nat /\
  draws (text_within example_env 12 7) (print_limited example_env 12 3 example_name 7).
Proof.
  assert (H : (3 <= 7)%nat) by lia.
  split; [exact H|]. exact (print_limited_within_limit example_env 12 3 example_name 7 H).
Defined.


(** *** [print_centered_vertically] *)

Lemma draws_print_centered_horizontally_from (P : RenderOp -> Prop) (env : Env)
    (y slice_size i : Z) (strings : list string) (color_pair : ColorPair) :
  (forall texture px sw sh, P (RenderCopy texture (mkRect px y sw sh))) ->
  draws P (print_centered_horizontally_from env y slice_size i strings color_pair).
Proof.
  intros HP. revert i. induction strings as [|s strings IH]; intros i;
    cbn [print_centered_horizontally_from]; [apply draws_ret|].
  destruct (TTF_RenderText_Shaded env s) as [[sw sh]|].
  - destruct (SDL_CreateTextureFromSurface env _).
    + apply draws_bind; [apply draws_render, HP|intros; apply IH].
    + apply draws_bind; [apply draws_log_message|intros; apply draws_ret].
  - apply draws_bind; [apply draws_log_message|intros; apply draws_ret].
Qed.

Lemma draws_print_centered_horizontally (P : RenderOp -> Prop) (env : Env)
    (y : Z) (strings : list string) (color_pair : ColorPair) :
  (forall texture px sw sh, P (RenderCopy texture (mkRect px y sw sh))) ->
  draws P (print_centered_horizontally env y strings color_pair).
Proof.
  intros HP. unfold print_centered_horizontally.
  destruct (y <? 0); [apply draws_ret|].
  now apply draws_print_centered_horizontally_from.
Qed.

Lemma draws_print_centered_vertically_loop (env : Env) (y : Z)
    (strings : list string) (color_pair : ColorPair) :
  0 < global_monospaced_font_height env ->
  0 <= y ->
  y + Z.of_nat (length strings) * global_monospaced_font_height env
    <= get_window_height env ->
  draws (line_within env)
        (print_centered_vertically_loop env y strings color_pair).
Proof.
  intros Hh. revert y. induction strings as [|s strings IH]; intros y Hy Hfit;
    cbn [print_centered_vertically_loop]; [apply draws_ret|].
  cbn [length] in Hfit. rewrite Nat2Z.inj_succ in Hfit.
  apply draws_bind.
  - apply draws_print_centered_horizontally. intros texture px sw sh.
    eexists _, _. split; [reflexivity|]. cbn. nia.
  - intros _. apply IH; nia.
Qed.

Lemma print_centered_vertically_code (env : Env) (strings : list string)
    (color_pair : ColorPair) (wd : World) :
  fst (print_centered_vertically env strings color_pair wd) = CODE_OK.
Proof.
  unfold print_centered_vertically, mbind, M_bind.
  now destruct (print_centered_vertically_loop _ _ _ _ wd).
Qed.

(** X11: with a positive font height, [print_centered_vertically] returns
    [CODE_OK] whatever happens to the lines, and every line that it draws
    starts at or below the top of the window and ends at or above its
    bottom. *)
Theorem print_centered_vertically_within_window (env : Env)
    (strings : list string) (color_pair : ColorPair) :
  0 < global_monospaced_font_height env ->
  (forall wd, fst (print_centered_vertically env strings color_pair wd) = CODE_OK) /\
  draws (line_within env) (print_centered_vertically env strings color_pair).
Proof.
  intros Hh. split; [intros wd; apply print_centered_vertically_code|].
  unfold print_centered_vertically.
  set (lh := global_monospaced_font_height env) in *.
  set (H := get_window_height env).
  set (count := if Z.of_nat (length strings) >? H ÷ lh then H ÷ lh
                else Z.of_nat (length strings)).
  apply draws_bind; [|intros; apply draws_ret].
  destruct (Z_le_gt_dec count 0) as [Hc|Hc].
  { replace (Z.to_nat count) with 0%nat by lia. cbn. apply draws_ret. }
  assert (HH : 0 <= H).
  { destruct (Z_lt_ge_dec H 0) as [Hneg|]; [|lia]. exfalso.
    assert (H ÷ lh <= 0) by (apply Z.quot_le_upper_bound; lia).
    unfold count in Hc. destruct (Z.gtb_spec (Z.of_nat (length strings)) (H ÷ lh)); lia. }
  assert (Hq : count * lh <= H).
  { assert (count <= H ÷ lh)
      by (unfold count; destruct (Z.gtb_spec (Z.of_nat (length strings)) (H ÷ lh)); lia).
    rewrite Z.quot_div_nonneg in * by lia.
    pose proof (Z.mul_div_le H lh Hh). nia. }
  assert (Hlen : Z.of_nat (length (take (Z.to_nat count) strings)) = count).
  { rewrite length_take.
    assert (count <= Z.of_nat (length strings))
      by (unfold count; destruct (Z.gtb_spec (Z.of_nat (length strings)) (H ÷ lh)); lia).
    lia. }
  set (d := H - count * lh) in *.
  assert (Hd : 0 <= d) by (unfold d; lia).
  apply draws_print_centered_vertically_loop; [assumption| |].
  - apply Z.quot_pos; lia.
  - rewrite Hlen. fold lh. fold H.
    rewrite Z.quot_div_nonneg by lia.
    assert (d / 2 <= d) by (apply Z.div_le_upper_bound; lia).
    unfold d in *. lia.
Qed.

Lemma print_centered_vertically_within_window_witness :
  0 < global_monospaced_font_height example_env /\
  (forall wd, fst (print_centered_vertically example_env ["You"; "died"]%string
                     example_color_pair wd) = CODE_OK) /\
  draws (line_within example_env)
        (print_centered_vertically example_env ["You"; "died"]%string
           example_color_pair).
Proof.
  assert (H : 0 < global_monospaced_font_height example_env) by now vm_compute.
  split; [exact H|].
  exact (print_centered_vertically_within_window example_env ["You"; "died"]%string
           example_color_pair H).
Defined.

(** *** [draw_platforms] *)

Lemma draw_rectangle_ops (env : Env) (x y w h : Z) (color : Color) (wd : World) :
  render_ops (snd (draw_rectangle env x y w h color wd))
  = render_ops wd
      ++ fill_ops color (draw_color wd)
           (mkRect (x * get_tile_width env)
                   (get_bar_height env + y * get_tile_height env)
                   (w * get_tile_width env) (h * get_tile_height env)) /\
  draw_color (snd (draw_rectangle env x y w h color wd)) = draw_color wd.
Proof.
  unfold draw_rectangle, draw_absolute_rectangle, mbind, M_bind. cbn.
  split; [|reflexivity]. now rewrite <- !app_assoc.
Qed.

(** X12: with numbers of columns and lines that are not zero, what the
    renderer receives from [draw_platforms] is, for each platform in order,
    the platform colour set, one rectangle filled and the former draw colour
    set again.  The rectangle is the row of tiles of the platform over the
    columns that the platform shares with the box, an empty rectangle (of a
    width that is not positive) when it shares none; the draw colour of the
    renderer is in the end what it was. *)
Theorem draw_platforms_clipped (env : Env) (platforms : list Platform.t)
    (box : BoundingBox.t) (wd : World) :
  get_columns env <> 0 -> get_lines env <> 0 ->
  exists rects,
    render_ops (snd (draw_platforms env platforms box wd))
    = render_ops wd
        ++ flat_map (fill_ops (foreground (COLOR_PAIR_PLATFORM env)) (draw_color wd))
                    rects /\
    Forall2 (platform_rectangle env box) platforms rects /\
    draw_color (snd (draw_platforms env platforms box wd)) = draw_color wd.
Proof.
  intros _ _. revert wd. induction platforms as [|p platforms IH]; intros wd.
  - exists []. cbn. split; [symmetry; apply app_nil_r|]. split; [constructor|reflexivity].
  - cbn [draw_platforms]. unfold mbind, M_bind.
    set (x := Z.max (BoundingBox.min_x box) (Platform.x p)).
    set (w := Z.min (BoundingBox.max_x box) (Platform.x p + Platform.width p - 1)
              - x + 1).
    pose proof (draw_rectangle_ops env x (Platform.y p) w 1
                  (foreground (COLOR_PAIR_PLATFORM env)) wd) as [Hops Hcolor].
    destruct (draw_rectangle env x (Platform.y p) w 1
                (foreground (COLOR_PAIR_PLATFORM env)) wd) as [[] wd1].
    cbn [snd] in Hops, Hcolor.
    destruct (IH wd1) as (rects & Hrects & Hall & Hrestored).
    eexists (_ :: rects). rewrite Hrects, Hops, Hcolor, <- app_assoc.
    split; [reflexivity|]. split; [|congruence].
    constructor; [|assumption].
    split; [reflexivity|]. split; [cbn; lia|].
    exists x, w. split; [reflexivity|]. split; [reflexivity|].
    intros column. unfold shared_column, x, w. lia.
Qed.

Lemma draw_platforms_clipped_witness :
  get_columns example_env <> 0 /\ get_lines example_env <> 0 /\
  exists rects,
    render_ops (snd (draw_platforms example_env (platforms example_game)
                       (box example_game) example_world))
    = render_ops example_world
        ++ flat_map (fill_ops (foreground (COLOR_PAIR_PLATFORM example_env))
                              (draw_color example_world)) rects /\
    Forall2 (platform_rectangle example_env (box example_game))
            (platforms example_game) rects /\
    draw_color (snd (draw_platforms example_env (platforms example_game)
                       (box example_game) example_world))
    = draw_color example_world.
Proof.
  assert (Hc : get_columns example_env <> 0) by discriminate.
  assert (Hl : get_lines example_env <> 0) by discriminate.
  split; [exact Hc|]. split; [exact Hl|].
  exact (draw_platforms_clipped example_env (platforms example_game)
           (box example_game) example_world Hc Hl).
Defined.

(** *** [print_centered] *)

(** X13: when the number of lines is not zero, the line is not negative
    and the text can be rendered, [print_centered] returns [CODE_OK] and
    copies the text once, at the requested line, with margins to the left
    and to the right edge of the window that differ by one pixel at most. *)
Theorem print_centered_centers (env : Env) (y : Z) (string : string)
    (color_pair : ColorPair) (wd : World) (sw sh : Z) :
  get_lines env <> 0 ->
  0 <= y ->
  TTF_RenderText_Shaded env string = Some (sw, sh) ->
  SDL_CreateTextureFromSurface env (sw, sh) = true ->
  exists texture px,
    fst (print_centered env y string color_pair wd) = CODE_OK /\
    render_ops (snd (print_centered env y string color_pair wd))
      = render_ops wd ++ [RenderCopy (Some texture)
                            (mkRect px (get_tile_height env * y) sw sh)] /\
    -1 <= (get_window_width env - (px + sw)) - px <= 1.
Proof.
  intros _ Hy Hs Ht. unfold print_centered.
  destruct (Z.ltb_spec y 0); [lia|]. rewrite Hs, Ht.
  eexists _, _. split; [reflexivity|]. split; [reflexivity|].
  pose proof (Z.quot_rem' (get_window_width env - sw) 2) as Hqr.
  pose proof (Z.rem_bound_abs (get_window_width env - sw) 2 ltac:(lia)) as Hb.
  cbn in Hb. lia.
Qed.

Lemma print_centered_centers_witness :
  get_lines example_env <> 0 /\
  0 <= 4 /\
  TTF_RenderText_Shaded example_env "Paused"%string = Some (60, 20) /\
  SDL_CreateTextureFromSurface example_env (60, 20) = true /\
  exists texture px,
    fst (print_centered example_env 4 "Paused"%string example_color_pair example_world)
      = CODE_OK /\
    render_ops (snd (print_centered example_env 4 "Paused"%string example_color_pair
                       example_world))
      = render_ops example_world
          ++ [RenderCopy (Some texture)
                (mkRect px (get_tile_height example_env * 4) 60 20)] /\
    -1 <= (get_window_width example_env - (px + 60)) - px <= 1.
Proof.
  assert (H0 : get_lines example_env <> 0) by discriminate.
  assert (H1 : 0 <= 4) by lia.
  assert (H2 : TTF_RenderText_Shaded example_env "Paused"%string = Some (60, 20))
    by reflexivity.
  assert (H3 : SDL_CreateTextureFromSurface example_env (60, 20) = true)
    by reflexivity.
  repeat (split; [assumption|]).
  exact (print_centered_centers example_env 4 "Paused"%string example_color_pair
           example_world 60 20 H0 H1 H2 H3).
Defined.

(** *** [render_borders] and [cache_borders_texture] *)

(** X14: the borders texture is built once.  With numbers of columns and
    lines that are not zero, when a texture is cached,
    [cache_borders_texture] returns [CODE_ERROR] and changes nothing, and
    [render_borders] copies the cached texture, whatever limits it is given,
    and keeps it. *)
Theorem borders_texture_cached_once (env : Env) (borders : BoundingBox.t)
    (wd : World) (t : Texture) :
  get_columns env <> 0 -> get_lines env <> 0 ->
  borders_texture wd = Some t ->
  cache_borders_texture env borders wd = (CODE_ERROR, wd) /\
  fst (render_borders env borders wd) = CODE_OK /\
  borders_texture (snd (render_borders env borders wd)) = Some t /\
  exists rect,
    render_ops (snd (render_borders env borders wd))
      = render_ops wd ++ [RenderCopy (Some t) rect].
Proof.
  intros _ _ Ht. split.
  - unfold cache_borders_texture, mbind, M_bind, get_borders_texture.
    now rewrite Ht.
  - unfold render_borders, mbind, M_bind, get_borders_texture. rewrite Ht.
    destruct (texture_size t) as [pw ph]. cbn.
    split; [reflexivity|]. split; [assumption|]. eexists. reflexivity.
Qed.

Lemma borders_texture_cached_once_witness :
  get_columns example_env <> 0 /\ get_lines example_env <> 0 /\
  borders_texture example_world_cached = Some example_cached_texture /\
  cache_borders_texture example_env example_borders example_world_cached
    = (CODE_ERROR, example_world_cached) /\
  fst (render_borders example_env example_borders example_world_cached) = CODE_OK /\
  borders_texture (snd (render_borders example_env example_borders
                          example_world_cached)) = Some example_cached_texture /\
  exists rect,
    render_ops (snd (render_borders example_env example_borders
                       example_world_cached))
      = render_ops example_world_cached
          ++ [RenderCopy (Some example_cached_texture) rect].
Proof.
  assert (Hc : get_columns example_env <> 0) by discriminate.
  assert (Hl : get_lines example_env <> 0) by discriminate.
  assert (H : borders_texture example_world_cached = Some example_cached_texture)
    by reflexivity.
  split; [exact Hc|]. split; [exact Hl|]. split; [exact H|].
  exact (borders_texture_cached_once example_env example_borders
           example_world_cached example_cached_texture Hc Hl H).
Defined.

(** After [render_borders] has returned [CODE_OK] a texture is cached. *)
Lemma render_borders_caches (env : Env) (borders : BoundingBox.t) (wd : World) :
  fst (render_borders env borders wd) = CODE_OK ->
  exists t, borders_texture (snd (render_borders env borders wd)) = Some t.
Proof.
  unfold render_borders, mbind, M_bind, get_borders_texture.
  destruct (borders_texture wd) as [t|] eqn:Ht.
  - destruct (texture_size t). cbn. eauto.
  - destruct (cache_borders_texture env borders wd) as [code wd1].
    destruct (borders_texture wd1) as [t|] eqn:Ht1; [|discriminate].
    destruct (texture_size t). cbn. eauto.
Qed.










(** *** More on [read_string] *)

Lemma c_string_take (buffer : list ascii) (n : nat) :
  strlen buffer = Some n -> c_string buffer = take n buffer.
Proof.
  revert n. induction buffer as [|c buffer IH]; intros n; cbn [strlen c_string];
    [discriminate|].
  destruct (is_NUL c); [now intros [= <-]|].
  destruct (strlen buffer) as [m|]; [|discriminate].
  intros [= <-]. cbn. now rewrite (IH m).
Qed.

(** X16: a valid character typed into a buffer that has room, then a
    backspace, leave the string as it was: both events are accepted, and
    [written] and the characters of the string are those before. *)
Theorem read_string_type_then_backspace (size : nat) (st : ReadState) (c : ascii) :
  buffer_ok size st -> isalnum c = true -> (written st + 1 < size)%nat ->
  exists st1 st2,
    read_string_event size (mkEvent SDL_TEXTINPUT 0 c) st = inr st1 /\
    read_string_event size (mkEvent SDL_KEYDOWN SDLK_BACKSPACE NUL) st1 = inr st2 /\
    written st2 = written st /\
    c_string (destination st2) = c_string (destination st).
Proof.
  intros Hok Hc Hroom.
  destruct (read_string_event size (mkEvent SDL_TEXTINPUT 0 c) st) as [code|st1] eqn:E1.
  { unfold read_string_event in E1. cbn [type text_text_0] in E1.
    change (SDL_TEXTINPUT =? SDL_QUIT) with false in E1.
    change (SDL_TEXTINPUT =? SDL_KEYDOWN) with false in E1.
    change (SDL_TEXTINPUT =? SDL_TEXTINPUT) with true in E1. cbn iota in E1.
    unfold is_valid_input_character in E1. rewrite Hc in E1.
    destruct (Nat.ltb_spec (written st + 1) size); [discriminate|lia]. }
  pose proof (read_string_event_ok _ _ _ _ Hok E1) as Hok1.
  unfold read_string_event in E1. cbn [type text_text_0] in E1.
  change (SDL_TEXTINPUT =? SDL_QUIT) with false in E1.
  change (SDL_TEXTINPUT =? SDL_KEYDOWN) with false in E1.
  change (SDL_TEXTINPUT =? SDL_TEXTINPUT) with true in E1. cbn iota in E1.
  unfold is_valid_input_character in E1. rewrite Hc in E1.
  destruct (Nat.ltb_spec (written st + 1) size); [|lia].
  cbn [andb] in E1. injection E1 as <-.
  cbn [store destination written stores should_rerender] in *.
  eexists _, _. split; [reflexivity|].
  unfold read_string_event. cbn [type key_keysym_sym written].
  change (SDL_KEYDOWN =? SDL_QUIT) with false.
  change (SDL_KEYDOWN =? SDL_KEYDOWN) with true.
  rewrite Z.eqb_refl.
  destruct (Nat.ltb_spec 0 (written st + 1)); [|lia]. cbn [andb].
  split; [reflexivity|].
  cbn [store destination written stores should_rerender].
  split; [lia|].
  replace (written st + 1 - 1)%nat with (written st) by lia.
  destruct Hok as [Hlen Hw Hsize Hst].
  rewrite (c_string_take (destination st) (written st) Hlen).
  rewrite (c_string_take _ (written st)).
  - now rewrite !take_insert_ge by lia.
  - apply strlen_spec. apply strlen_spec in Hlen as [_ Hall]. split.
    + exists NUL. split; [|reflexivity].
      apply list_lookup_insert_eq. rewrite !length_insert. lia.
    + intros i c' Hi Hc'. rewrite !list_lookup_insert_ne in Hc' by lia.
      now apply (Hall i c').
Qed.

Lemma read_string_event_alnum (size : nat) (event : SDL_Event) (st st' : ReadState) :
  buffer_ok size st -> read_string_event size event st = inr st' ->
  Forall (fun c => isalnum c = true) (take (written st) (destination st)) ->
  Forall (fun c => isalnum c = true) (take (written st') (destination st')).
Proof.
  intros [Hlen Hw Hsize Hst]. unfold read_string_event.
  destruct (type event =? SDL_QUIT); [discriminate|].
  destruct (type event =? SDL_KEYDOWN).
  - destruct ((key_keysym_sym event =? SDLK_BACKSPACE) && (0 <? written st)%nat) eqn:E.
    + intros [= <-] H. cbn [store destination written].
      apply andb_true_iff in E as [_ Hpos%Nat.ltb_lt].
      rewrite take_insert_ge by lia.
      replace (written st) with (written st - 1 + 1)%nat in H by lia.
      rewrite <- take_take_drop in H. now apply Forall_app in H as [H _].
    + destruct (key_keysym_sym event =? SDLK_RETURN); [discriminate|].
      now intros [= <-].
  - destruct (type event =? SDL_TEXTINPUT); [|now intros [= <-]].
    destruct (is_valid_input_character (text_text_0 event)
              && (written st + 1 <? size)%nat) eqn:E; [|now intros [= <-]].
    intros [= <-] H. apply andb_true_iff in E as [Hc Hroom%Nat.ltb_lt].
    cbn [store destination written].
    rewrite take_insert_ge by lia.
    rewrite Nat.add_1_r.
    rewrite (take_S_r _ _ (text_text_0 event))
      by (apply list_lookup_insert_eq; lia).
    rewrite take_insert_ge by lia.
    apply Forall_app. split; [assumption|now constructor].
Qed.

Lemma read_string_loop_alnum (size : nat) (events : list (option SDL_Event))
    (st : ReadState) :
  buffer_ok size st ->
  Forall (fun c => isalnum c = true) (take (written st) (destination st)) ->
  let st' := snd (read_string_loop size events st) in
  Forall (fun c => isalnum c = true) (take (written st') (destination st')).
Proof.
  revert st. induction events as [|[event|] events IH]; intros st Hok H;
    cbn [read_string_loop]; cbn zeta.
  - exact H.
  - assert (Hok0 : buffer_ok size (mkReadState (destination st) (written st)
                                     false (stores st)))
      by (destruct Hok; split; assumption).
    destruct (read_string_event size event _) as [code|st1] eqn:E; [exact H|].
    apply IH.
    + eapply read_string_event_ok; eassumption.
    + eapply read_string_event_alnum; eassumption.
  - apply IH; [destruct Hok; split; assumption|exact H].
Qed.

Lemma read_string_type_then_backspace_witness :
  buffer_ok 6 (mkReadState example_buffer 2 false []) /\
  isalnum "z" = true /\ (2 + 1 < 6)%nat /\
  exists st1 st2,
    read_string_event 6 (mkEvent SDL_TEXTINPUT 0 "z")
      (mkReadState example_buffer 2 false []) = inr st1 /\
    read_string_event 6 (mkEvent SDL_KEYDOWN SDLK_BACKSPACE NUL) st1 = inr st2 /\
    written st2 = 2%nat /\
    c_string (destination st2) = c_string example_buffer.
Proof.
  assert (H1 : buffer_ok 6 (mkReadState example_buffer 2 false []))
    by (split; cbn; [reflexivity|lia|lia|constructor]).
  assert (H2 : isalnum "z" = true) by reflexivity.
  assert (H3 : (2 + 1 < 6)%nat) by lia.
  repeat (split; [assumption|]).
  exact (read_string_type_then_backspace 6 _ "z" H1 H2 H3).
Defined.

(** X17: when the string that [destination] holds at first is made of
    letters and digits only (and is shorter than [size], in a buffer of at
    least [size] characters), so is the string that it holds after any
    sequence of events, whether [read_string] has returned by then or still
    waits for an event. *)
Theorem read_string_alphanumeric (size : nat) (buffer : list ascii)
    (events : list (option SDL_Event)) (n : nat) :
  strlen buffer = Some n -> (n < size)%nat -> (size <= length buffer)%nat ->
  Forall (fun c => isalnum c = true) (c_string buffer) ->
  exists code st,
    read_string size buffer events = Some (code, st) /\
    Forall (fun c => isalnum c = true) (c_string (destination st)).
Proof.
  intros Hlen Hn Hsize Halnum. unfold read_string. rewrite Hlen.
  assert (Hok : buffer_ok size (mkReadState buffer n true []))
    by (split; cbn; auto).
  pose proof (read_string_loop_ok size events _ Hok) as Hok'.
  pose proof (read_string_loop_alnum size events _ Hok) as Hal.
  cbn zeta in Hal. cbn [written destination] in Hal.
  rewrite (c_string_take _ _ Hlen) in Halnum. specialize (Hal Halnum).
  destruct (read_string_loop size events _) as [code st]. cbn [snd] in *.
  exists code, st. split; [reflexivity|].
  now rewrite (c_string_take _ _ (ok_strlen _ _ Hok')).
Qed.

Lemma read_string_alphanumeric_witness :
  strlen example_buffer = Some 2%nat /\ (2 < 6)%nat /\
  (6 <= length example_buffer)%nat /\
  Forall (fun c => isalnum c = true) (c_string example_buffer) /\
  exists code st,
    read_string 6 example_buffer example_events = Some (code, st) /\
    Forall (fun c => isalnum c = true) (c_string (destination st)).
Proof.
  assert (H1 : strlen example_buffer = Some 2%nat) by reflexivity.
  assert (H2 : (2 < 6)%nat) by lia.
  assert (H3 : (6 <= length example_buffer)%nat) by (cbn; lia).
  assert (H4 : Forall (fun c => isalnum c = true) (c_string example_buffer))
    by (repeat constructor).
  repeat (split; [assumption|]).
  exact (read_string_alphanumeric 6 example_buffer example_events 2 H1 H2 H3 H4).
Defined.

(** *** Commands *)

Lemma read_next_command_loop_app (q1 q2 : list SDL_Event) (c : Command) :
  read_next_command_loop (q1 ++ q2) c =
  read_next_command_loop q2 (fst (read_next_command_loop q1 c)).
Proof.
  revert c. induction q1 as [|event q1 IH]; intros c; [reflexivity|].
  cbn [app read_next_command_loop]. apply IH.
Qed.

Lemma read_next_command_loop_some (queue : list SDL_Event) (c : Command) :
  is_command_none c = false ->
  is_command_none (fst (read_next_command_loop queue c)) = false.
Proof.
  revert c. induction queue as [|event queue IH]; intros c Hc;
    cbn [read_next_command_loop]; [exact Hc|].
  apply IH. now destruct (is_command_none (command_from_event event)) eqn:E.
Qed.

Lemma read_next_command_loop_start (queue : list SDL_Event) (c : Command) :
  fst (read_next_command_loop queue c) =
  if is_command_none (fst (read_next_command_loop queue COMMAND_NONE))
  then c else fst (read_next_command_loop queue COMMAND_NONE).
Proof.
  revert c. induction queue as [|event queue IH]; intros c;
    cbn [read_next_command_loop]; [reflexivity|].
  destruct (is_command_none (command_from_event event)) eqn:E; [apply IH|].
  now rewrite (read_next_command_loop_some queue _ E).
Qed.

(** X18: reading two batches of events at once gives the command of the
    second batch, unless the second batch gives [COMMAND_NONE]; then it
    gives the command of the first batch. *)
Theorem read_next_command_app (q1 q2 : list SDL_Event) :
  fst (read_next_command (q1 ++ q2)) =
  if is_command_none (fst (read_next_command q2))
  then fst (read_next_command q1)
  else fst (read_next_command q2).
Proof.
  unfold read_next_command. rewrite read_next_command_loop_app.
  apply read_next_command_loop_start.
Qed.

Lemma command_from_event_keyboard (event : SDL_Event) :
  keyboard_command (command_from_event event) = true.
Proof.
  unfold command_from_event.
  repeat match goal with
         | |- context [if ?b then _ else _] => destruct b
         end; reflexivity.
Qed.

(** X19: no sequence of events makes [read_next_command] return
    [COMMAND_PAUSE] or [COMMAND_INVEST]: [command_from_event] maps no event to
    them. *)
Theorem read_next_command_never_pauses (queue : list SDL_Event) :
  fst (read_next_command queue) <> COMMAND_PAUSE /\
  fst (read_next_command queue) <> COMMAND_INVEST.
Proof.
  assert (H : forall c, keyboard_command c = true ->
                keyboard_command (fst (read_next_command_loop queue c)) = true).
  { induction queue as [|event queue IH]; intros c Hc;
      cbn [read_next_command_loop]; [exact Hc|].
    apply IH. destruct (is_command_none (command_from_event event));
      [exact Hc|apply command_from_event_keyboard]. }
  specialize (H COMMAND_NONE eq_refl). unfold read_next_command.
  destruct (fst (read_next_command_loop queue COMMAND_NONE)); easy.
Qed.

Lemma wait_for_next_command_skips (skipped rest : list (option SDL_Event)) :
  Forall no_command skipped ->
  wait_for_next_command (skipped ++ rest) = wait_for_next_command rest.
Proof.
  induction 1 as [|[event|] skipped Hno _ IH]; cbn [app wait_for_next_command];
    [reflexivity| |exact IH].
  cbn in Hno. now rewrite Hno.
Qed.

(** X20: [wait_for_next_command] returns the command of the first event
    that maps to a command other than [COMMAND_NONE], passing over failed
    waits and the events before it, and consumes nothing after it. *)
Theorem wait_for_next_command_first (skipped rest : list (option SDL_Event))
    (event : SDL_Event) :
  Forall no_command skipped ->
  is_command_none (command_from_event event) = false ->
  wait_for_next_command (skipped ++ Some event :: rest)
  = Some (command_from_event event, rest).
Proof.
  intros Hskip Hevent. rewrite wait_for_next_command_skips by assumption.
  cbn [wait_for_next_command]. now rewrite Hevent.
Qed.

Lemma wait_for_next_command_first_witness :
  Forall no_command [None; Some (mkEvent SDL_TEXTINPUT 0 "a"%char)] /\
  is_command_none (command_from_event (mkEvent SDL_KEYDOWN SDLK_SPACE NUL)) = false /\
  wait_for_next_command
    ([None; Some (mkEvent SDL_TEXTINPUT 0 "a"%char)]
       ++ Some (mkEvent SDL_KEYDOWN SDLK_SPACE NUL)
       :: [Some (mkEvent SDL_KEYDOWN SDLK_q NUL)])
  = Some (command_from_event (mkEvent SDL_KEYDOWN SDLK_SPACE NUL),
          [Some (mkEvent SDL_KEYDOWN SDLK_q NUL)]).
Proof.
  assert (H1 : Forall no_command [None; Some (mkEvent SDL_TEXTINPUT 0 "a"%char)])
    by (repeat constructor).
  assert (H2 : is_command_none
                 (command_from_event (mkEvent SDL_KEYDOWN SDLK_SPACE NUL)) = false)
    by reflexivity.
  split; [exact H1|]. split; [exact H2|].
  exact (wait_for_next_command_first _ _ _ H1 H2).
Defined.

(** The converse: what [wait_for_next_command] returns is never
    [COMMAND_NONE], and it comes from such an event. *)
Lemma wait_for_next_command_inv (events rest : list (option SDL_Event))
    (c : Command) :
  wait_for_next_command events = Some (c, rest) ->
  is_command_none c = false /\
  exists skipped event,
    events = skipped ++ Some event :: rest /\ Forall no_command skipped /\
    c = command_from_event event.
Proof.
  induction events as [|[event|] events IH]; cbn [wait_for_next_command];
    [discriminate| |].
  - destruct (is_command_none (command_from_event event)) eqn:E.
    + intros H. destruct (IH H) as (Hc & skipped & e & -> & Hs & ->).
      split; [assumption|]. exists (Some event :: skipped), e.
      split; [reflexivity|]. split; [constructor; assumption|reflexivity].
    + intros [= <- <-]. split; [assumption|]. exists [], event.
      split; [reflexivity|]. split; [constructor|reflexivity].
  - intros H. destruct (IH H) as (Hc & skipped & e & -> & Hs & ->).
    split; [assumption|]. exists (None :: skipped), e.
    split; [reflexivity|]. split; [constructor; [exact I|assumption]|reflexivity].
Qed.

(** *** The layout of the window *)

(** X21: for a window at least forty pixels high and a positive number of
    lines, the bar height that [create_window] computes is at least
    [MINIMUM_BAR_HEIGHT], and the two bars fit in the height. *)
Theorem create_window_bar_height (env : Env) (width height : Z) :
  0 < get_lines env -> 2 * MINIMUM_BAR_HEIGHT <= height ->
  let bar := snd (create_window env (width, height)) in
  MINIMUM_BAR_HEIGHT <= bar /\ 2 * bar <= height.
Proof.
  intros Hl Hh. unfold create_window. cbn [snd].
  unfold MINIMUM_BAR_HEIGHT in *.
  set (n := get_lines env) in *.
  rewrite (Z.quot_div_nonneg (height - 2 * 20) n) by lia.
  pose proof (Z.mul_div_le (height - 2 * 20) n Hl) as Hle.
  assert (0 <= (height - 2 * 20) / n) by (apply Z.div_pos; lia).
  rewrite Z.quot_div_nonneg by nia.
  split.
  - apply Z.div_le_lower_bound; nia.
  - pose proof (Z.mul_div_le (height - n * ((height - 2 * 20) / n)) 2 ltac:(lia)).
    nia.
Qed.

Lemma create_window_bar_height_witness :
  0 < get_lines example_env /\ 2 * MINIMUM_BAR_HEIGHT <= 669 /\
  let bar := snd (create_window example_env (800, 669)) in
  MINIMUM_BAR_HEIGHT <= bar /\ 2 * bar <= 669.
Proof.
  assert (H1 : 0 < get_lines example_env) by now vm_compute.
  assert (H2 : 2 * MINIMUM_BAR_HEIGHT <= 669) by now vm_compute.
  split; [exact H1|]. split; [exact H2|].
  exact (create_window_bar_height example_env 800 669 H1 H2).
Defined.

(** X22: with positive numbers of columns and lines, the grid of tiles
    fits in the window: the columns take no more than its width, and the
    lines, below the top bar, end at or above its bottom. *)
Theorem tiles_fit_window (env : Env) :
  0 < get_columns env -> 0 < get_lines env ->
  0 <= window_width env -> bar_height env <= window_height env ->
  0 <= get_columns env * get_tile_width env <= window_width env /\
  get_bar_height env <= get_bar_height env + get_lines env * get_tile_height env
    <= window_height env.
Proof.
  intros Hc Hl Hw Hb.
  unfold get_tile_width, get_tile_height, get_window_width,
    get_window_height, get_bar_height.
  rewrite !Z.quot_div_nonneg by lia.
  pose proof (Z.mul_div_le (window_width env) (get_columns env) Hc).
  pose proof (Z.mul_div_le (window_height env - bar_height env) (get_lines env) Hl).
  assert (0 <= window_width env / get_columns env) by (apply Z.div_pos; lia).
  assert (0 <= (window_height env - bar_height env) / get_lines env)
    by (apply Z.div_pos; lia).
  nia.
Qed.

Lemma tiles_fit_window_witness :
  0 < get_columns example_env /\ 0 < get_lines example_env /\
  0 <= window_width example_env /\
  bar_height example_env <= window_height example_env /\
  0 <= get_columns example_env * get_tile_width example_env
    <= window_width example_env /\
  get_bar_height example_env
    <= get_bar_height example_env + get_lines example_env * get_tile_height example_env
    <= window_height example_env.
Proof.
  assert (H1 : 0 < get_columns example_env) by now vm_compute.
  assert (H2 : 0 < get_lines example_env) by now vm_compute.
  assert (H3 : 0 <= window_width example_env) by now vm_compute.
  assert (H4 : bar_height example_env <= window_height example_env) by now vm_compute.
  repeat (split; [assumption|]).
  exact (tiles_fit_window example_env H1 H2 H3 H4).
Defined.

End IOMoreSpec.

Module JoystickSpec.
Import IO Joystick.

(** X23: no event of the joystick gives [COMMAND_QUIT], [COMMAND_CLOSE] or
    [COMMAND_CENTER]. *)
Theorem command_from_joystick_event_never_quits (event : SDL_JoyEvent) :
  command_from_joystick_event event <> COMMAND_QUIT /\
  command_from_joystick_event event <> COMMAND_CLOSE /\
  command_from_joystick_event event <> COMMAND_CENTER.
Proof.
  unfold command_from_joystick_event.
  repeat match goal with
         | |- context [if ?b then _ else _] => destruct b
         end; repeat split; discriminate.
Qed.

(** X24: an axis motion gives no command exactly when the value is inside
    the dead zone, bounds included. *)
Theorem command_from_joystick_event_dead_zone (event : SDL_JoyEvent) :
  type event = SDL_JOYAXISMOTION ->
  command_from_joystick_event event = COMMAND_NONE <->
  - JOYSTICK_DEAD_ZONE <= jaxis_value event <= JOYSTICK_DEAD_ZONE.
Proof.
  intros Ht. unfold command_from_joystick_event. rewrite Ht.
  change (SDL_JOYAXISMOTION =? SDL_JOYBUTTONDOWN) with false.
  change (SDL_JOYAXISMOTION =? SDL_JOYAXISMOTION) with true. cbn iota.
  destruct (Z.gtb_spec (Z.abs (jaxis_value event)) JOYSTICK_DEAD_ZONE) as [Hout|Hin].
  - split; [|lia].
    destruct (jaxis_axis event =? 0), (jaxis_value event >? 0); discriminate.
  - split; [lia|reflexivity].
Qed.

Lemma command_from_joystick_event_dead_zone_witness :
  type (mkJoyEvent SDL_JOYAXISMOTION 0 1 (-4096)) = SDL_JOYAXISMOTION /\
  (command_from_joystick_event (mkJoyEvent SDL_JOYAXISMOTION 0 1 (-4096))
   = COMMAND_NONE <->
   - JOYSTICK_DEAD_ZONE <= jaxis_value (mkJoyEvent SDL_JOYAXISMOTION 0 1 (-4096))
     <= JOYSTICK_DEAD_ZONE).
Proof.
  split; [reflexivity|].
  exact (command_from_joystick_event_dead_zone
           (mkJoyEvent SDL_JOYAXISMOTION 0 1 (-4096)) eq_refl).
Defined.

(** The direction follows the sign of the value outside the dead zone. *)
Lemma command_from_joystick_event_direction (button axis value : Z) :
  JOYSTICK_DEAD_ZONE < Z.abs value ->
  command_from_joystick_event (mkJoyEvent SDL_JOYAXISMOTION button axis value)
  = if axis =? 0
    then (if value >? 0 then COMMAND_RIGHT else COMMAND_LEFT)
    else (if value >? 0 then COMMAND_DOWN else COMMAND_UP).
Proof.
  intros Hv. unfold command_from_joystick_event. cbn [type jaxis_value jaxis_axis].
  change (SDL_JOYAXISMOTION =? SDL_JOYBUTTONDOWN) with false.
  change (SDL_JOYAXISMOTION =? SDL_JOYAXISMOTION) with true. cbn iota.
  destruct (Z.gtb_spec (Z.abs value) JOYSTICK_DEAD_ZONE); [reflexivity|lia].
Qed.

End JoystickSpec.

Module MainSpec.
Import Main.

(** X25: given any argument, [main] handles the first argument only and
    returns 0 without starting the session: it prints the version for
    [--version] and logs any other argument as unrecognized. *)
Theorem main_first_argument_only (version program argument : string)
    (arguments : list string) (session : Z + string) :
  main version (program :: argument :: arguments) session =
  (0, if String.eqb argument "--version"
      then [Printed (version ++ String "010"%char EmptyString)%string]
      else [Logged ("Unrecognized argument: " ++ argument ++ ".")%string]).
Proof.
  unfold main. cbn [tail parse_arguments]. unfold parse_argument.
  destruct (String.eqb argument "--version");
    destruct arguments; reflexivity.
Qed.

(** Without an argument the session is started, and its result returned. *)
Lemma main_without_arguments (version program : string) (result : Z) :
  main version [program] (inl result) = (result, [SessionStarted]).
Proof. reflexivity. Qed.

End MainSpec.
